(** * mongodb-queue: a work queue on top of a document store

    Shallow embedding of [mongodb-queue.js] and proofs about the message
    lifecycle: add, get, ping, ack, the maintenance counters and migrate.

    The document store itself (MongoDB) is outside the repository.  It is
    modelled by the small fragment the queue uses: collections of documents
    in insertion order, filters, [$set]/[$inc] updates, [findOneAndUpdate],
    [bulkWrite], [count], [find] and [deleteMany].  A field of a document is
    either absent or present, never stored as an explicit null: a filter
    [{ f : null }] selects the documents in which [f] is absent and
    [{ f : { $exists : true } }] those in which it is present.  Indexes are
    not modelled.  The store is assumed reachable, so that the only errors
    are the ones the queue itself raises.

    Time is in milliseconds since the epoch; every store round trip happens
    at one instant. *)

From stdpp Require Import gmap strings list.
From Stdlib Require Import ZArith HexadecimalString HexadecimalN.

Local Open Scope Z_scope.
Set Warnings "-register-all,-clear-no-such-hyp".

(** ** JavaScript values and results *)

(** Payloads are opaque user values; [add] only asks whether one is an
    array, and the dead-letter path of [get] builds an object. *)
Inductive Value :=
| VUndefined
| VNull
| VBool (b : bool)
| VNum (n : Z)
| VStr (s : string)
| VArr (items : list Value)
| VObj (fields : list (string * Value)).

(** A synchronous call either throws or returns. *)
Inductive Completion (A : Type) :=
| Throws (message : string)
| Returns (a : A).
Arguments Throws {A} message.
Arguments Returns {A} a.

(** One invocation of a node-style callback: [callback(err)] or
    [callback(null, value)]. *)
Inductive Outcome (A : Type) :=
| Failure (message : string)
| Success (a : A).
Arguments Failure {A} message.
Arguments Success {A} a.

(** [x || d] on an optional number: absent and 0 are falsy. *)
Definition or_else (x : option Z) (d : Z) : Z :=
  match x with
  | Some v => if v =? 0 then d else v
  | None => d
  end.

(** ** Documents *)

(** [visible] and [deleted] are native dates, or strings in records written
    by an earlier version of the library (see [migrate]). *)
Inductive Stamp :=
| Date (ms : Z)
| DateString (s : string).

Module Doc.
Record t := mk {
  _id : N;
  payload : Value;
  visible : option Stamp;
  ack : option string;
  tries : option Z;
  deleted : option Stamp;
  debounce : option string
}.

Definition set_payload (v : Value) (d : t) : t :=
  mk (_id d) v (visible d) (ack d) (tries d) (deleted d) (debounce d).
Definition set_visible (s : Stamp) (d : t) : t :=
  mk (_id d) (payload d) (Some s) (ack d) (tries d) (deleted d) (debounce d).
Definition set_ack (a : string) (d : t) : t :=
  mk (_id d) (payload d) (visible d) (Some a) (tries d) (deleted d) (debounce d).
Definition set_deleted (s : Stamp) (d : t) : t :=
  mk (_id d) (payload d) (visible d) (ack d) (tries d) (Some s) (debounce d).
Definition set_debounce (k : string) (d : t) : t :=
  mk (_id d) (payload d) (visible d) (ack d) (tries d) (deleted d) (Some k).
(** [$inc] treats an absent counter as 0. *)
Definition inc_tries (n : Z) (d : t) : t :=
  mk (_id d) (payload d) (visible d) (ack d)
     (Some (default 0 (tries d) + n)) (deleted d) (debounce d).

(** The document holding only its [_id]. *)
Definition blank (i : N) : t := mk i VUndefined None None None None None.
End Doc.

(** The message handed to the consumer. *)
Module Msg.
Record t := mk {
  id : string;
  ack : string;
  payload : Value;
  tries : Z
}.
End Msg.

(** ['' + _id]: an object id prints as hexadecimal digits. *)
Definition show_id (i : N) : string :=
  NilZero.string_of_uint (N.to_hex_uint i).

(** ** The store *)

(** A collection keeps its documents in insertion order and hands out
    increasing object ids. *)
Record Collection := mkCollection {
  docs : list Doc.t;
  nextId : N
}.

Definition empty_collection : Collection := mkCollection [] 0%N.

(** Values a filter compares against. *)
Inductive Bson :=
| BDate (ms : Z)
| BString (s : string)
| BObjectId (i : N).

Inductive Field := F_id | Fvisible | Fack | Fdeleted | Fdebounce.

Definition bson_of_stamp (s : Stamp) : Bson :=
  match s with
  | Date ms => BDate ms
  | DateString str => BString str
  end.

Definition field_value (f : Field) (d : Doc.t) : option Bson :=
  match f with
  | F_id => Some (BObjectId (Doc._id d))
  | Fvisible => bson_of_stamp <$> Doc.visible d
  | Fack => BString <$> Doc.ack d
  | Fdeleted => bson_of_stamp <$> Doc.deleted d
  | Fdebounce => BString <$> Doc.debounce d
  end.

Inductive Cond :=
| IsNull                (* { f : null } *)
| Exists                (* { f : { $exists : true } } *)
| Equals (v : Bson)     (* { f : v } *)
| Lte (ms : Z)          (* { f : { $lte : date } } *)
| Gt (ms : Z)           (* { f : { $gt : date } } *)
| IsString.             (* { f : { $type : 2 } } *)

Definition bson_eqb (a b : Bson) : bool :=
  match a, b with
  | BDate x, BDate y => x =? y
  | BString x, BString y => String.eqb x y
  | BObjectId x, BObjectId y => (x =? y)%N
  | _, _ => false
  end.

(** An ordered comparison against a date only selects dates: a legacy
    string timestamp satisfies neither [$lte] nor [$gt]. *)
Definition cond_holds (c : Cond) (v : option Bson) : bool :=
  match c, v with
  | IsNull, None => true
  | Exists, Some _ => true
  | Equals x, Some y => bson_eqb y x
  | Lte n, Some (BDate m) => m <=? n
  | Gt n, Some (BDate m) => n <? m
  | IsString, Some (BString _) => true
  | _, _ => false
  end.

Inductive Query :=
| Fields (conds : list (Field * Cond))      (* conjunction *)
| Or (q1 q2 : Query).

Fixpoint matches (q : Query) (d : Doc.t) : bool :=
  match q with
  | Fields conds =>
      forallb (fun fc => cond_holds (snd fc) (field_value (fst fc) d)) conds
  | Or q1 q2 => matches q1 d || matches q2 d
  end.

Inductive Assign :=
| SetVisible (s : Stamp)
| SetAck (a : string)
| SetDeleted (s : Stamp)
| SetPayload (v : Value).

(** [{ $inc : { tries : n }, $set : { ... } }] *)
Record Update := mkUpdate {
  inc_tries : option Z;
  set : list Assign
}.

Definition assign (d : Doc.t) (a : Assign) : Doc.t :=
  match a with
  | SetVisible s => Doc.set_visible s d
  | SetAck t => Doc.set_ack t d
  | SetDeleted s => Doc.set_deleted s d
  | SetPayload v => Doc.set_payload v d
  end.

Definition apply_update (u : Update) (d : Doc.t) : Doc.t :=
  let d := match inc_tries u with
           | Some n => Doc.inc_tries n d
           | None => d
           end in
  foldl assign d (set u).

(** Position and content of the first match, in natural order. *)
Fixpoint first_match (q : Query) (l : list Doc.t) : option (nat * Doc.t) :=
  match l with
  | [] => None
  | d :: l' =>
      if matches q d then Some (O, d)
      else prod_map S id <$> first_match q l'
  end.

(** Position and content of the match with the least [_id]
    ([sort : { _id : 1 }]). *)
Fixpoint least_match (q : Query) (l : list Doc.t) : option (nat * Doc.t) :=
  match l with
  | [] => None
  | d :: l' =>
      match least_match q l' with
      | None => if matches q d then Some (O, d) else None
      | Some (i, m) =>
          if matches q d && (Doc._id d <=? Doc._id m)%N then Some (O, d)
          else Some (S i, m)
      end
  end.

Inductive Sort := By_id.

(** [findOneAndUpdate(query, update, { sort, returnOriginal : false })]:
    the selected document is updated in place and returned as updated. *)
Definition findOneAndUpdate (query : Query) (update : Update)
    (sort : option Sort) (c : Collection) : option Doc.t * Collection :=
  let found := match sort with
               | Some By_id => least_match query (docs c)
               | None => first_match query (docs c)
               end in
  match found with
  | None => (None, c)
  | Some (i, d) =>
      let d' := apply_update update d in
      (Some d', mkCollection (<[i := d']> (docs c)) (nextId c))
  end.

Definition insert_doc (mk_doc : N -> Doc.t) (c : Collection) : N * Collection :=
  let i := nextId c in
  (i, mkCollection (docs c ++ [mk_doc i]) (N.succ i)).

Inductive WriteOp :=
| InsertOne (visible : Stamp) (payload : Value)
| UpdateOne (filter : Query) (update : Update) (upsert : bool).

Record BulkWriteResult := mkBulkWriteResult {
  insertedIds : gmap nat N;
  upsertedIds : gmap nat N;
  modifiedCount : nat
}.

(** An upsert that matches nothing inserts the document made of the
    filter's equality clauses, updated. *)
Definition seed (d : Doc.t) (fc : Field * Cond) : Doc.t :=
  match fc with
  | (Fvisible, Equals (BDate ms)) => Doc.set_visible (Date ms) d
  | (Fvisible, Equals (BString s)) => Doc.set_visible (DateString s) d
  | (Fack, Equals (BString a)) => Doc.set_ack a d
  | (Fdeleted, Equals (BDate ms)) => Doc.set_deleted (Date ms) d
  | (Fdeleted, Equals (BString s)) => Doc.set_deleted (DateString s) d
  | (Fdebounce, Equals (BString k)) => Doc.set_debounce k d
  | _ => d
  end.

Definition upsert_doc (filter : Query) (update : Update) (i : N) : Doc.t :=
  let base := match filter with
              | Fields conds => foldl seed (Doc.blank i) conds
              | Or _ _ => Doc.blank i
              end in
  apply_update update base.

(** One operation of a bulk write, at position [index] of the batch. *)
Definition write_one (index : nat) (op : WriteOp)
    (acc : BulkWriteResult * Collection) : BulkWriteResult * Collection :=
  let '(r, c) := acc in
  match op with
  | InsertOne visible payload =>
      let '(i, c') :=
        insert_doc (fun i => Doc.set_payload payload
                               (Doc.set_visible visible (Doc.blank i))) c in
      (mkBulkWriteResult (<[index := i]> (insertedIds r)) (upsertedIds r)
                         (modifiedCount r), c')
  | UpdateOne filter update upsert =>
      match first_match filter (docs c) with
      | Some (k, d) =>
          (mkBulkWriteResult (insertedIds r) (upsertedIds r)
                             (S (modifiedCount r)),
           mkCollection (<[k := apply_update update d]> (docs c)) (nextId c))
      | None =>
          if upsert then
            let '(i, c') := insert_doc (upsert_doc filter update) c in
            (mkBulkWriteResult (insertedIds r) (<[index := i]> (upsertedIds r))
                               (modifiedCount r), c')
          else (r, c)
      end
  end.

Fixpoint write_from (index : nat) (ops : list WriteOp)
    (acc : BulkWriteResult * Collection) : BulkWriteResult * Collection :=
  match ops with
  | [] => acc
  | op :: ops' => write_from (S index) ops' (write_one index op acc)
  end.

(** [bulkWrite(operations)]: ordered, the operations run one after the
    other. *)
Definition bulkWrite (operations : list WriteOp) (c : Collection)
    : BulkWriteResult * Collection :=
  write_from O operations (mkBulkWriteResult ∅ ∅ O, c).

Definition find (query : Query) (c : Collection) : list Doc.t :=
  List.filter (matches query) (docs c).

Definition count (query : option Query) (c : Collection) : nat :=
  match query with
  | Some q => length (find q c)
  | None => length (docs c)
  end.

Definition deleteMany (query : Query) (c : Collection) : Collection :=
  mkCollection (List.filter (fun d => negb (matches query d)) (docs c))
               (nextId c).

(** ** The queue *)

(** A client is a handle on one database; a collection of it is found by
    name. *)
Record Client := mkClient { database : string }.

Abbreviation Db := (gmap (string * string) Collection).

Definition collection (mongoDbClient : Client) (name : string)
    : string * string :=
  (database mongoDbClient, name).

(** A collection that was never written to is empty. *)
Definition col_of (db : Db) (ref : string * string) : Collection :=
  default empty_collection (db !! ref).

(** [maxRetries] is a number or [Infinity]. *)
Inductive Retries :=
| Limit (n : Z)
| Infinity.

(** [tries > maxRetries] *)
Definition exceeds (tries : Z) (maxRetries : Retries) : bool :=
  match maxRetries with
  | Limit n => n <? tries
  | Infinity => false
  end.

Module Queue.
Inductive t := mk {
  name : string;
  col : string * string;
  visibility : Z;
  delay : Z;
  cleanAfterSeconds : Z;
  deadQueue : option t;
  maxRetries : Retries
}.
End Queue.

Module QueueOptions.
Record t := mk {
  visibility : option Z;
  delay : option Z;
  deadQueue : option Queue.t;
  maxRetries : option Z;
  cleanAfterSeconds : option Z
}.
Definition empty : t := mk None None None None None.
End QueueOptions.

Module AddOptions.
Record t := mk {
  delay : option Z;
  debounce : option string
}.
Definition empty : t := mk None None.
End AddOptions.

Module GetOptions.
Record t := mk { visibility : option Z }.
Definition empty : t := mk None.
End GetOptions.

Module PingOptions.
Record t := mk { visibility : option Z }.
Definition empty : t := mk None.
End PingOptions.

(** [new Queue(mongoDbClient, name, opts)].  A missing argument is
    [None]; the empty name is falsy as well. *)
Definition new_Queue (mongoDbClient : option Client) (name : option string)
    (opts : option QueueOptions.t) : Completion Queue.t :=
  match mongoDbClient with
  | None => Throws "mongodb-queue: provide a mongodb.MongoClient"
  | Some client =>
      match name with
      | None | Some EmptyString => Throws "mongodb-queue: provide a queue name"
      | Some name =>
          let opts := default QueueOptions.empty opts in
          let cleanAfterSeconds :=
            match QueueOptions.cleanAfterSeconds opts with
            | Some s => if 0 <=? s then s else -1
            | None => -1
            end in
          Returns
            (Queue.mk name (collection client name)
               (or_else (QueueOptions.visibility opts) 30)
               (or_else (QueueOptions.delay opts) 0)
               cleanAfterSeconds
               (QueueOptions.deadQueue opts)
               (match QueueOptions.deadQueue opts with
                | Some _ => Limit (or_else (QueueOptions.maxRetries opts) 5)
                | None =>
                    match QueueOptions.maxRetries opts with
                    | Some n => if n =? 0 then Infinity else Limit n
                    | None => Infinity
                    end
                end))
      end
  end.

Definition nowPlusSecs (now secs : Z) : Z := now + secs * 1000.

(** An id or the text put in its place, and ['' + x] on it. *)
Inductive Slot :=
| SlotId (i : N)
| SlotText (s : string).

Definition show_slot (x : Slot) : string :=
  match x with
  | SlotId i => show_id i
  | SlotText s => s
  end.

(** [Array.isArray(v)], and the elements of an array. *)
Definition isArray (v : Value) : bool :=
  match v with
  | VArr _ => true
  | _ => false
  end.

Definition elements (v : Value) : list Value :=
  match v with
  | VArr items => items
  | _ => []
  end.

(** [result.insertedIds[index] || result.upsertedIds[index]
    || '(debounced)'] *)
Definition slot_at (result : BulkWriteResult) (index : nat) : Slot :=
  match insertedIds result !! index with
  | Some i => SlotId i
  | None =>
      match upsertedIds result !! index with
      | Some i => SlotId i
      | None => SlotText "(debounced)"
      end
  end.

(** [opts.debounce || null]: the empty string is falsy. *)
Definition debounce_key (opts : AddOptions.t) : option string :=
  match AddOptions.debounce opts with
  | Some EmptyString | None => None
  | Some k => Some k
  end.

Definition add_operation (debounce : option string) (visible : Z)
    (payload : Value) : WriteOp :=
  match debounce with
  | Some k =>
      UpdateOne
        (Fields [(Fack, IsNull); (Fdeleted, IsNull);
                 (Fdebounce, Equals (BString k))])
        (mkUpdate None [SetVisible (Date visible); SetPayload payload])
        true
  | None => InsertOne (Date visible) payload
  end.

(** [Queue.prototype.add], run at instant [now].  The result is what the
    callback receives, with the database after the write. *)
Definition add (self : Queue.t) (payload : Value)
    (opts : option AddOptions.t) (now : Z) (db : Db) : Outcome Value * Db :=
  let opts := default AddOptions.empty opts in
  let delay := or_else (AddOptions.delay opts) (Queue.delay self) in
  let visible := if delay =? 0 then now else nowPlusSecs now delay in
  let debounce := debounce_key opts in
  let justOne := negb (isArray payload) in
  let payloads := if justOne then [payload] else elements payload in
  if (length payloads <=? 0)%nat then
    (Failure "Queue.add(): Array payload length must be greater than 0", db)
  else
    let operations := map (add_operation debounce visible) payloads in
    let '(result, c) := bulkWrite operations (col_of db (Queue.col self)) in
    let ids := imap (fun index _ => slot_at result index) payloads in
    let db' := <[Queue.col self := c]> db in
    if justOne then
      (Success (VStr (match ids with
                      | x :: _ => show_slot x
                      | [] => "undefined"
                      end)), db')
    else
      (Success (VStr (String.concat "," (map show_slot ids))), db').

Definition unidentified_ping (ack : string) : string :=
  "Queue.ping(): Unidentified ack  : " ++ ack.

Definition unidentified_ack (ack : string) : string :=
  "Queue.ack(): Unidentified ack : " ++ ack.

(** [Queue.prototype.ping] *)
Definition ping (self : Queue.t) (ack : string)
    (opts : option PingOptions.t) (now : Z) (db : Db) : Outcome string * Db :=
  let opts := default PingOptions.empty opts in
  let visibility :=
    or_else (PingOptions.visibility opts) (Queue.visibility self) in
  let query := Fields [(Fack, Equals (BString ack)); (Fvisible, Gt now);
                       (Fdeleted, IsNull)] in
  let update := mkUpdate None [SetVisible (Date (nowPlusSecs now visibility))] in
  match findOneAndUpdate query update None (col_of db (Queue.col self)) with
  | (None, _) => (Failure (unidentified_ping ack), db)
  | (Some value, c) => (Success (show_id (Doc._id value)),
                        <[Queue.col self := c]> db)
  end.

(** [Queue.prototype.ack] *)
Definition ack (self : Queue.t) (ack : string) (now : Z) (db : Db)
    : Outcome string * Db :=
  let query := Fields [(Fack, Equals (BString ack)); (Fvisible, Gt now);
                       (Fdeleted, IsNull)] in
  let update := mkUpdate None [SetDeleted (Date now)] in
  match findOneAndUpdate query update None (col_of db (Queue.col self)) with
  | (None, _) => (Failure (unidentified_ack ack), db)
  | (Some value, c) => (Success (show_id (Doc._id value)),
                        <[Queue.col self := c]> db)
  end.

(** The environment of a call that makes several round trips: the clock
    reading and the random token ([crypto.randomBytes(16)] in hex) at each
    of them. *)
Record Oracle := mkOracle {
  clock : nat -> Z;
  rand : nat -> string
}.

(** The external representation of a claimed document.  The claim always
    sets [ack] and [tries]. *)
Definition external (msg : Doc.t) : Msg.t :=
  Msg.mk (show_id (Doc._id msg)) (default EmptyString (Doc.ack msg))
         (Doc.payload msg) (default 0 (Doc.tries msg)).

(** A message as a payload of the dead queue. *)
Definition value_of_msg (msg : Msg.t) : Value :=
  VObj [("id", VStr (Msg.id msg)); ("ack", VStr (Msg.ack msg));
        ("payload", Msg.payload msg); ("tries", VNum (Msg.tries msg))]%string.

(** What a call of [get] leaves behind: the invocations of its callback,
    in order, and the database. *)
Abbreviation Delivery := (list (Outcome (option Msg.t)) * Db)%type.

(** The retry check of [get], entered with the claimed message [msg] at
    round trip [k]; [again] is [self.get(callback)] from a given round
    trip on.  [None] stands for a call that is still running. *)
Definition check_tries (again : nat -> Db -> option Delivery)
    (self : Queue.t) (msg : Msg.t) (o : Oracle) (k : nat) (db : Db)
    : option Delivery :=
  if exceeds (Msg.tries msg) (Queue.maxRetries self) then
    match Queue.deadQueue self with
    | Some deadQueue =>
        match add deadQueue (value_of_msg msg) None (clock o (k + 1)) db with
        | (Failure err, db1) => Some ([Failure err], db1)
        | (Success _, db1) =>
            match ack self (Msg.ack msg) (clock o (k + 2)) db1 with
            | (Failure err, db2) => Some ([Failure err], db2)
            | (Success _, db2) => again (k + 3)%nat db2
            end
        end
    | None =>
        (* the acknowledgement is sent, and the callback is called with
           the message before the reply arrives *)
        let later :=
          match ack self (Msg.ack msg) (clock o (k + 1)) db with
          | (Failure err, db1) => Some ([Failure err], db1)
          | (Success _, db1) => again (k + 2)%nat db1
          end in
        prod_map (cons (Success (Some msg))) id <$> later
    end
  else Some ([Success (Some msg)], db).

(** [Queue.prototype.get], whose first round trip is number [k]. *)
Fixpoint get (fuel : nat) (self : Queue.t) (opts : option GetOptions.t)
    (o : Oracle) (k : nat) (db : Db) : option Delivery :=
  match fuel with
  | O => None
  | S fuel' =>
      let opts := default GetOptions.empty opts in
      let visibility :=
        or_else (GetOptions.visibility opts) (Queue.visibility self) in
      let query := Fields [(Fdeleted, IsNull); (Fvisible, Lte (clock o k))] in
      let sort := By_id in
      let update :=
        mkUpdate (Some 1)
          [SetAck (rand o k);
           SetVisible (Date (nowPlusSecs (clock o k) visibility))] in
      match findOneAndUpdate query update (Some sort)
                             (col_of db (Queue.col self)) with
      | (None, _) => Some ([Success None], db)
      | (Some msg, c) =>
          check_tries (get fuel' self None o) self (external msg) o k
                      (<[Queue.col self := c]> db)
      end
  end.

(** [Queue.prototype.clean] *)
Definition clean (self : Queue.t) (db : Db) : Db :=
  let query := Fields [(Fdeleted, Exists)] in
  <[Queue.col self := deleteMany query (col_of db (Queue.col self))]> db.

(** [Queue.prototype.total] *)
Definition total (self : Queue.t) (db : Db) : Outcome nat :=
  Success (count None (col_of db (Queue.col self))).

(** [Queue.prototype.size] *)
Definition size (self : Queue.t) (now : Z) (db : Db) : Outcome nat :=
  let query := Fields [(Fdeleted, IsNull); (Fvisible, Lte now)] in
  Success (count (Some query) (col_of db (Queue.col self))).

(** [Queue.prototype.inFlight] *)
Definition inFlight (self : Queue.t) (now : Z) (db : Db) : Outcome nat :=
  let query := Fields [(Fack, Exists); (Fvisible, Gt now);
                       (Fdeleted, IsNull)] in
  Success (count (Some query) (col_of db (Queue.col self))).

(** [Queue.prototype.done] *)
Definition done (self : Queue.t) (db : Db) : Outcome nat :=
  let query := Fields [(Fdeleted, Exists)] in
  Success (count (Some query) (col_of db (Queue.col self))).

(** [Queue.prototype.migrate].  [parse] is [new Date(string)]. *)
Definition migrate (parse : string -> Z) (self : Queue.t) (db : Db)
    : Outcome (option nat) * Db :=
  let addOperation (document : Doc.t) : WriteOp :=
    let changes :=
      match Doc.deleted document with
      | Some (DateString s) => [SetDeleted (Date (parse s))]
      | _ => []
      end ++
      match Doc.visible document with
      | Some (DateString s) => [SetVisible (Date (parse s))]
      | _ => []
      end in
    UpdateOne (Fields [(F_id, Equals (BObjectId (Doc._id document)))])
              (mkUpdate None changes) false in
  let query := Or (Fields [(Fdeleted, IsString)])
                  (Fields [(Fvisible, IsString)]) in
  let operations := map addOperation (find query (col_of db (Queue.col self))) in
  if (length operations <=? 0)%nat then (Success None, db)
  else
    let '(result, c) := bulkWrite operations (col_of db (Queue.col self)) in
    (Success (Some (modifiedCount result)), <[Queue.col self := c]> db).

(** ** Sequences of calls *)

(** A call of one of the operations that write to a collection. *)
Inductive Call :=
| CallAdd (self : Queue.t) (payload : Value) (opts : option AddOptions.t)
          (now : Z)
| CallGet (fuel : nat) (self : Queue.t) (opts : option GetOptions.t)
          (o : Oracle) (k : nat)
| CallPing (self : Queue.t) (ack : string) (opts : option PingOptions.t)
           (now : Z)
| CallAck (self : Queue.t) (ack : string) (now : Z)
| CallMigrate (parse : string -> Z) (self : Queue.t).

(** The database once the call has completed. *)
Definition commit (c : Call) (db : Db) : option Db :=
  match c with
  | CallAdd self payload opts now => Some (add self payload opts now db).2
  | CallGet fuel self opts o k => snd <$> get fuel self opts o k db
  | CallPing self t opts now => Some (ping self t opts now db).2
  | CallAck self t now => Some (ack self t now db).2
  | CallMigrate parse self => Some (migrate parse self db).2
  end.

Fixpoint run (calls : list Call) (db : Db) : option Db :=
  match calls with
  | [] => Some db
  | c :: calls' =>
      match commit c db with
      | Some db' => run calls' db'
      | None => None
      end
  end.

(** ** Leases *)

(** Token [t] identifies exactly one document of [c], the one with id
    [oid], which is not deleted and is hidden until [deadline]. *)
Definition Leased (c : Collection) (t : string) (deadline : Z) (oid : N)
    : Prop :=
  ∃ i d,
    docs c !! i = Some d ∧ Doc._id d = oid ∧ Doc.ack d = Some t
    ∧ Doc.deleted d = None ∧ Doc.visible d = Some (Date deadline)
    ∧ ∀ j d', docs c !! j = Some d' → Doc.ack d' = Some t → j = i.

(** The [visible] of the first document that carries token [t]. *)
Fixpoint visible_under (t : string) (l : list Doc.t) : option Stamp :=
  match l with
  | [] => None
  | d :: l' =>
      if decide (Doc.ack d = Some t) then Doc.visible d
      else visible_under t l'
  end.

(** Every document that carries token [t] is deleted. *)
Definition Spent (c : Collection) (t : string) : Prop :=
  ∀ j d, docs c !! j = Some d → Doc.ack d = Some t → Doc.deleted d ≠ None.

(** The tokens the oracle hands out from round trip [k] on are on no
    document of [c]. *)
Definition Unminted (o : Oracle) (k : nat) (c : Collection) : Prop :=
  ∀ n j d, (k ≤ n)%nat → docs c !! j = Some d → Doc.ack d ≠ Some (rand o n).

(** A series of pings of the same token, each at its instant. *)
Fixpoint pings (self : Queue.t) (t : string)
    (ps : list (Z * option PingOptions.t)) (db : Db)
    : list (Outcome string) * Db :=
  match ps with
  | [] => ([], db)
  | (now, opts) :: ps' =>
      let '(r, db1) := ping self t opts now db in
      let '(rs, db2) := pings self t ps' db1 in
      (r :: rs, db2)
  end.

(** The deadline a ping at [now] sets. *)
Definition extended (self : Queue.t) (now : Z) (opts : option PingOptions.t)
    : Z :=
  nowPlusSecs now
    (or_else (PingOptions.visibility (default PingOptions.empty opts))
             (Queue.visibility self)).

(** Every ping of the series comes before the deadline then in force. *)
Fixpoint in_time (self : Queue.t) (deadline : Z)
    (ps : list (Z * option PingOptions.t)) : Prop :=
  match ps with
  | [] => True
  | (now, opts) :: ps' =>
      now < deadline ∧ in_time self (extended self now opts) ps'
  end.

Fixpoint last_deadline (self : Queue.t) (deadline : Z)
    (ps : list (Z * option PingOptions.t)) : Z :=
  match ps with
  | [] => deadline
  | (now, opts) :: ps' => last_deadline self (extended self now opts) ps'
  end.

(** ** Results of a bulk write, told in order *)

(** The slot of one operation run on [c], and the collection it leaves. *)
Definition slot_of (op : WriteOp) (c : Collection) : Slot :=
  match op with
  | InsertOne _ _ => SlotId (nextId c)
  | UpdateOne filter _ upsert =>
      match first_match filter (docs c) with
      | Some _ => SlotText "(debounced)"
      | None => if upsert then SlotId (nextId c) else SlotText "(debounced)"
      end
  end.

Definition written (op : WriteOp) (c : Collection) : Collection :=
  (write_one O op (mkBulkWriteResult ∅ ∅ O, c)).2.

Fixpoint slots_in_order (ops : list WriteOp) (c : Collection) : list Slot :=
  match ops with
  | [] => []
  | op :: ops' => slot_of op c :: slots_in_order ops' (written op c)
  end.

(** ** States of a document *)

(** Not deleted and visible at [now]: Pending, or leased with the lease
    run out. *)
Definition Claimable (now : Z) (d : Doc.t) : Prop :=
  Doc.deleted d = None ∧ ∃ v, Doc.visible d = Some (Date v) ∧ v ≤ now.

(** Leased under token [t] with the lease still running at [now]. *)
Definition Live (t : string) (now : Z) (d : Doc.t) : Prop :=
  Doc.ack d = Some t ∧ Doc.deleted d = None
  ∧ ∃ v, Doc.visible d = Some (Date v) ∧ now < v.

(** Pending or Delayed (never claimed, not deleted) under debounce key
    [k]. *)
Definition Waiting (k : string) (d : Doc.t) : Prop :=
  Doc.ack d = None ∧ Doc.deleted d = None ∧ Doc.debounce d = Some k.

(** No operation has been recorded at position [index] or after. *)
Definition Unused (r : BulkWriteResult) (index : nat) : Prop :=
  ∀ j, (index ≤ j)%nat →
       insertedIds r !! j = None ∧ upsertedIds r !! j = None.

(** ** What a write keeps *)

(** Every document of [l] is still in its place in [l'], under the same
    [_id], and deleted if it was. *)
Definition Kept (l l' : list Doc.t) : Prop :=
  ∀ i d, l !! i = Some d →
         ∃ d', l' !! i = Some d' ∧ Doc._id d' = Doc._id d
               ∧ (Doc.deleted d ≠ None → Doc.deleted d' ≠ None).

Definition KeptDb (db db' : Db) : Prop :=
  ∀ ref, Kept (docs (col_of db ref)) (docs (col_of db' ref)).

(** The number of documents of [c] that are not deleted. *)
Definition undeleted (c : Collection) : nat :=
  length (List.filter (fun d => bool_decide (Doc.deleted d = None)) (docs c)).

(** ** Scenarios *)

Definition demo_client : Client := mkClient "test".

(** A queue that delays its messages by three seconds. *)
Definition delayed_queue : Queue.t :=
  Queue.mk "debounce" ("test", "debounce")%string 30 3 (-1) None Infinity.

(** A queue that gives up after one try, with no dead queue. *)
Definition strict_queue : Queue.t :=
  Queue.mk "strict" ("test", "strict")%string 30 0 (-1) None (Limit 1).

Definition dead_queue : Queue.t :=
  Queue.mk "dead" ("test", "dead")%string 30 0 (-1) None Infinity.

(** A queue that gives up after one try and retires into [dead_queue]. *)
Definition retiring_queue : Queue.t :=
  Queue.mk "work" ("test", "work")%string 30 0 (-1) (Some dead_queue) (Limit 1).

Definition demo_oracle : Oracle :=
  mkOracle (fun k => 1000 + Z.of_nat k)
           (fun k => show_id (N.of_nat (256 + k))).

(** Two plain messages, enqueued at instant 0. *)
Definition two_messages (self : Queue.t) : Db :=
  (add self (VArr [VStr "a"; VStr "b"]) None 0 ∅).2.

(** The same, after the first message was claimed once and its lease ran
    out. *)
Definition once_tried (self : Queue.t) : Db :=
  match get 1 self None (mkOracle (fun _ => 10) (fun _ => "stale"%string)) O
            (two_messages self) with
  | Some (_, db) => db
  | None => ∅
  end.

(** Readings of the clock a minute later. *)
Definition late_oracle : Oracle :=
  mkOracle (fun k => 60000 + Z.of_nat k)
           (fun k => show_id (N.of_nat (512 + k))).

(** The debounce scenario of the tests: a first greeting is waiting. *)
Definition greetings : AddOptions.t :=
  AddOptions.mk None (Some "greetings"%string).

Definition greeted : Db :=
  (add delayed_queue (VStr "Hello, World!") (Some greetings) 1000 ∅).2.

(** The first of the two messages, claimed at instant 1000. *)
Definition claimed : Db :=
  match get 1 strict_queue None demo_oracle O (two_messages strict_queue) with
  | Some (_, db) => db
  | None => ∅
  end.

(** ... and acknowledged at instant 2000. *)
Definition acked : Db := (ack strict_queue "100" 2000 claimed).2.

(** Calls that follow: a stale ping and a stale acknowledgement, a new
    message, two claims a minute later, and a migration. *)
Definition later_calls : list Call :=
  [CallPing strict_queue "100" None 3000;
   CallAck strict_queue "100" 3000;
   CallAdd strict_queue (VStr "c") None 4000;
   CallGet 2 strict_queue None late_oracle 0;
   CallGet 2 strict_queue None late_oracle 5;
   CallMigrate (fun _ => 0) strict_queue].

(** A clock that starts at instant [t]. *)
Definition oracle_at (t : Z) : Oracle :=
  mkOracle (fun k => t + Z.of_nat k)
           (fun k => show_id (N.of_nat (256 + k))).

(** The debounce test of the repository: two greetings under one key on a
    queue with a delay of three seconds, claims before and after the
    delay, an acknowledgement and a last claim.  The results are those of
    the six steps. *)
Definition debounce_test
    : option (list (Outcome (option Msg.t)) * Outcome Value
              * list (Outcome (option Msg.t)) * list (Outcome (option Msg.t))
              * Outcome string * list (Outcome (option Msg.t))) :=
  '(r1, db1) ← get 1 delayed_queue None (oracle_at 1100) O greeted;
  let '(r2, db2) :=
    add delayed_queue (VStr "Bonjour, monde!") (Some greetings) 1200 db1 in
  '(r3, db3) ← get 1 delayed_queue None (oracle_at 1300) O db2;
  '(r4, db4) ← get 1 delayed_queue None (oracle_at 5300) O db3;
  let '(r5, db5) := ack delayed_queue "100" 5400 db4 in
  '(r6, _) ← get 1 delayed_queue None (oracle_at 5500) O db5;
  Some (r1, r2, r3, r4, r5, r6).

(** * Further definitions *)

(** The documents a plain [add] of [payloads] appends to a collection
    whose next id is [first]. *)
Definition fresh_docs (first : N) (visible : Z) (payloads : list Value)
    : list Doc.t :=
  imap (fun j p => Doc.mk (first + N.of_nat j) p (Some (Date visible))
                          None None None None) payloads.

(** A document written by an earlier version: [deleted] or [visible] is a
    string. *)
Definition legacy (d : Doc.t) : bool :=
  matches (Or (Fields [(Fdeleted, IsString)]) (Fields [(Fvisible, IsString)]))
          d.

(** A timestamp with its string, if it is one, parsed into a date. *)
Definition parsed (parse : string -> Z) (s : option Stamp) : option Stamp :=
  match s with
  | Some (DateString str) => Some (Date (parse str))
  | _ => s
  end.

(** A document with both timestamps parsed. *)
Definition migrated (parse : string -> Z) (d : Doc.t) : Doc.t :=
  Doc.mk (Doc._id d) (Doc.payload d) (parsed parse (Doc.visible d))
         (Doc.ack d) (Doc.tries d) (parsed parse (Doc.deleted d))
         (Doc.debounce d).

(** The operation [migrate] queues for a document it found. *)
Definition migrate_operation (parse : string -> Z) (document : Doc.t)
    : WriteOp :=
  UpdateOne (Fields [(F_id, Equals (BObjectId (Doc._id document)))])
            (mkUpdate None
               (match Doc.deleted document with
                | Some (DateString s) => [SetDeleted (Date (parse s))]
                | _ => []
                end ++
                match Doc.visible document with
                | Some (DateString s) => [SetVisible (Date (parse s))]
                | _ => []
                end))
            false.

(** A collection with a document written by an earlier version, deleted,
    and a current one. *)
Definition legacy_db : Db :=
  {[ Queue.col strict_queue :=
       mkCollection
         [Doc.mk 0 (VStr "old") (Some (DateString "2014-03-01T10:00:00Z"))
                 None None (Some (DateString "2014-03-02T10:00:00Z")) None;
          Doc.mk 1 (VStr "new") (Some (Date 0)) None None None None]
         2 ]}.

(** Calls other than [migrate]. *)
Definition is_migrate (c : Call) : bool :=
  match c with
  | CallMigrate _ _ => true
  | _ => false
  end.

(** The database after the claim of [get] alone: its first round trip,
    made at [now] with token [t] for [visibility] seconds. *)
Definition claimed_by (self : Queue.t) (visibility now : Z) (t : string)
    (db : Db) : Db :=
  match findOneAndUpdate
          (Fields [(Fdeleted, IsNull); (Fvisible, Lte now)])
          (mkUpdate (Some 1)
             [SetAck t; SetVisible (Date (nowPlusSecs now visibility))])
          (Some By_id) (col_of db (Queue.col self)) with
  | (Some _, c) => <[Queue.col self := c]> db
  | (None, _) => db
  end.

(** At most one document of [l] waits under debounce key [k]. *)
Definition Once (k : string) (l : list Doc.t) : Prop :=
  ∀ i j d d', l !! i = Some d → l !! j = Some d' →
              Waiting k d → Waiting k d' → i = j.

Definition OncePerKey (db : Db) : Prop :=
  ∀ ref k, Once k (docs (col_of db ref)).

(** Two greetings under one key, a claim once the delay has passed, and a
    third greeting under the same key. *)
Definition greeting_calls : list Call :=
  [CallAdd delayed_queue (VStr "Hello, World!") (Some greetings) 1000;
   CallAdd delayed_queue (VStr "Bonjour, monde!") (Some greetings) 1200;
   CallGet 1 delayed_queue None (oracle_at 5300) 0;
   CallAdd delayed_queue (VStr "Hola, mundo!") (Some greetings) 6000].

(** How a document may differ, later, from what it was: same [_id] and
    debounce key, [tries] not less, still claimed if it was, still deleted
    if it was, and the same payload if it was claimed or deleted. *)
Definition Ages (d d' : Doc.t) : Prop :=
  Doc._id d' = Doc._id d ∧ Doc.debounce d' = Doc.debounce d
  ∧ default 0 (Doc.tries d) ≤ default 0 (Doc.tries d')
  ∧ (Doc.ack d ≠ None → Doc.ack d' ≠ None)
  ∧ (Doc.deleted d ≠ None → Doc.deleted d' ≠ None)
  ∧ (Doc.ack d ≠ None ∨ Doc.deleted d ≠ None →
     Doc.payload d' = Doc.payload d).

(** Every document of [db] is in its place in [db'], aged. *)
Definition Aged (db db' : Db) : Prop :=
  ∀ ref i d, docs (col_of db ref) !! i = Some d →
             ∃ d', docs (col_of db' ref) !! i = Some d' ∧ Ages d d'.

(** * Properties *)

(** ** Reading a collection back *)

Lemma col_of_insert_eq (db : Db) ref c : col_of (<[ref := c]> db) ref = c.
Proof. unfold col_of. by rewrite lookup_insert_eq. Qed.

Lemma col_of_insert_ne (db : Db) ref ref' c :
  ref ≠ ref' → col_of (<[ref := c]> db) ref' = col_of db ref'.
Proof. intros Hne. unfold col_of. by rewrite lookup_insert_ne. Qed.

Lemma or_else_falsy d : or_else (Some 0) d = or_else None d.
Proof. reflexivity. Qed.


(** ** Delay of a new message *)

(** What [add] writes, when it writes. *)
Lemma add_writes self payload opts now db :
  let opts' := default AddOptions.empty opts in
  let delay := or_else (AddOptions.delay opts') (Queue.delay self) in
  let payloads := if isArray payload then elements payload else [payload] in
  payloads ≠ [] →
  (add self payload opts now db).2
  = <[Queue.col self :=
        (bulkWrite (map (add_operation (debounce_key opts')
                                       (now + delay * 1000)) payloads)
                   (col_of db (Queue.col self))).2]> db.
Proof.
  intros opts' delay payloads Hne. unfold add.
  fold opts'. fold delay.
  replace (if delay =? 0 then now else nowPlusSecs now delay)
    with (now + delay * 1000)
    by (unfold nowPlusSecs; destruct (Z.eqb_spec delay 0); lia).
  replace (if negb (isArray payload) then [payload] else elements payload)
    with payloads by (unfold payloads; by destruct (isArray payload)).
  destruct payloads as [|p ps]; [done|]. simpl Nat.leb. cbv iota.
  destruct (bulkWrite _ _) as [result c] eqn:Hbw.
  by destruct (negb (isArray payload)).
Qed.

(** C5, as the code has it.  The delay of [add] is [opts.delay] when it is
    given and is not 0, and the delay of the queue otherwise, also when
    [opts.delay] is 0; the message becomes visible at [now] plus that
    delay. *)
Theorem add_delay_zero_falls_back self payload opts now db :
  let requested := AddOptions.delay (default AddOptions.empty opts) in
  let effectiveDelay :=
    match requested with
    | Some d => if d =? 0 then Queue.delay self else d
    | None => Queue.delay self
    end in
  let key := debounce_key (default AddOptions.empty opts) in
  let payloads := if isArray payload then elements payload else [payload] in
  let c := col_of db (Queue.col self) in
  payloads ≠ [] →
  (add self payload opts now db).2
  = <[Queue.col self :=
        (bulkWrite (map (add_operation key (now + effectiveDelay * 1000))
                        payloads) c).2]> db
  ∧ (isArray payload = false → key = None →
     docs (col_of (add self payload opts now db).2 (Queue.col self))
     = docs c ++ [Doc.mk (nextId c) payload
                         (Some (Date (now + effectiveDelay * 1000)))
                         None None None None]).
Proof.
  intros requested effectiveDelay key payloads c Hne.
  pose proof (add_writes self payload opts now db Hne) as Hw.
  split; [exact Hw|].
  intros Harr Hkey. rewrite Hw, col_of_insert_eq.
  fold key. rewrite Hkey, Harr. reflexivity.
Qed.

Lemma add_delay_zero_falls_back_witness :
  docs (col_of (add delayed_queue (VStr "x")
                    (Some (AddOptions.mk (Some 0) None)) 1000 ∅).2
               (Queue.col delayed_queue))
  = [Doc.mk 0 (VStr "x") (Some (Date 4000)) None None None None].
Proof.
  exact (proj2 (add_delay_zero_falls_back delayed_queue (VStr "x")
                  (Some (AddOptions.mk (Some 0) None)) 1000 ∅
                  ltac:(discriminate)) eq_refl eq_refl).
Defined.

(** C5, as stated, fails: on a queue whose delay is 3 seconds, a message
    added at instant 1000 with [delay : 0] becomes visible at 4000, not at
    1000. *)
Lemma add_delay_zero_counterexample :
  Doc.visible <$>
    docs (col_of (add delayed_queue (VStr "x")
                      (Some (AddOptions.mk (Some 0) None)) 1000 ∅).2
                 (Queue.col delayed_queue))
  = [Some (Date 4000)]
  ∧ Date 4000 ≠ Date (nowPlusSecs 1000 0).
Proof. split; [reflexivity | discriminate]. Qed.

(** ** Lease duration *)




(** ** Counters *)

Lemma filter_length_le {A} (f : A → bool) (l : list A) :
  (length (List.filter f l) ≤ length l)%nat.
Proof. induction l as [|x l IH]; simpl; [lia|]. destruct (f x); simpl; lia. Qed.


Lemma in_flight_not_claimable now d :
  matches (Fields [(Fack, Exists); (Fvisible, Gt now); (Fdeleted, IsNull)]) d
  = true →
  matches (Fields [(Fdeleted, IsNull); (Fvisible, Lte now)]) d = false
  ∧ matches (Fields [(Fdeleted, Exists)]) d = false.
Proof.
  destruct d as [i p v a t del deb]. simpl.
  destruct a, del; simpl; try done;
    destruct v as [[ms|str]|]; simpl; try done;
    rewrite ?andb_false_r, ?andb_true_r; try done.
  intros H. split; [|done]. lia.
Qed.



(** ** Selection of a document *)

Lemma first_match_Some q l i d :
  first_match q l = Some (i, d) →
  l !! i = Some d ∧ matches q d = true
  ∧ ∀ j d', (j < i)%nat → l !! j = Some d' → matches q d' = false.
Proof.
  revert i. induction l as [|x l IH]; intros i; simpl; [done|].
  destruct (matches q x) eqn:Ex.
  - intros [= <- <-]. split_and!; [done..|]. intros; lia.
  - destruct (first_match q l) as [[i' d0]|]; [|done].
    intros [= <- <-]. destruct (IH i' eq_refl) as (Hl & Hm & Hbefore).
    split_and!; [done..|].
    intros [|j] d' Hj; simpl; [by intros [= <-]|].
    apply Hbefore. lia.
Qed.

Lemma first_match_None q l :
  first_match q l = None ↔ ∀ j d, l !! j = Some d → matches q d = false.
Proof.
  induction l as [|x l IH]; simpl; [done|].
  destruct (matches q x) eqn:Ex.
  - split; [done|]. intros H. specialize (H O x eq_refl). congruence.
  - destruct (first_match q l) as [[i' d0]|]; simpl.
    + split; [done|]. intros H.
      assert (Some (i', d0) = None) as Hn; [|done].
      apply IH. intros j d Hj. by apply (H (S j)).
    + split; [|done]. intros _ [|j] d; simpl; [by intros [= <-]|].
      by apply IH.
Qed.

Lemma first_match_intro q l i d :
  l !! i = Some d → matches q d = true →
  (∀ j d', (j < i)%nat → l !! j = Some d' → matches q d' = false) →
  first_match q l = Some (i, d).
Proof.
  intros Hl Hm Hbefore.
  destruct (first_match q l) as [[i' d']|] eqn:E.
  - destruct (first_match_Some _ _ _ _ E) as (Hl' & Hm' & Hbefore').
    destruct (lt_eq_lt_dec i i') as [[Hlt|Heq]|Hgt].
    + rewrite (Hbefore' i d Hlt Hl) in Hm. done.
    + subst. rewrite Hl in Hl'. by injection Hl' as <-.
    + rewrite (Hbefore i' d' Hgt Hl') in Hm'. done.
  - rewrite first_match_None in E. rewrite (E i d Hl) in Hm. done.
Qed.

Lemma least_match_Some q l i d :
  least_match q l = Some (i, d) →
  l !! i = Some d ∧ matches q d = true
  ∧ ∀ j d', l !! j = Some d' → matches q d' = true →
            (Doc._id d ≤ Doc._id d')%N.
Proof.
  revert i d. induction l as [|x l IH]; intros i d; simpl; [done|].
  destruct (least_match q l) as [[i' m]|] eqn:E.
  - destruct (IH i' m eq_refl) as (Hl & Hm & Hleast).
    destruct (matches q x) eqn:Ex; simpl.
    + destruct (N.leb_spec (Doc._id x) (Doc._id m)).
      * intros [= <- <-]. split_and!; [done..|].
        intros [|j] d'; simpl; [intros [= <-] _; lia|].
        intros Hj Hd'. specialize (Hleast j d' Hj Hd'). lia.
      * intros [= <- <-]. split_and!; [done..|].
        intros [|j] d'; simpl; [intros [= <-] _; lia|].
        apply Hleast.
    + intros [= <- <-]. split_and!; [done..|].
      intros [|j] d'; simpl; [intros [= <-]; congruence|].
      apply Hleast.
  - destruct (matches q x) eqn:Ex; [|done].
    intros [= <- <-]. split_and!; [done..|].
    intros [|j] d'; simpl; [intros [= <-] _; lia|].
    intros Hj Hd'.
    assert (matches q d' = false); [|congruence].
    clear IH. revert j Hj. induction l as [|y l IHl]; [done|].
    simpl in E. destruct (least_match q l) as [[? ?]|].
    + by destruct (matches q y && _).
    + destruct (matches q y) eqn:Ey; [done|].
      intros [|j]; simpl; [by intros [= <-]|]. by apply IHl.
Qed.

Lemma least_match_None q l :
  least_match q l = None ↔ ∀ j d, l !! j = Some d → matches q d = false.
Proof.
  induction l as [|x l IH]; simpl; [done|].
  destruct (least_match q l) as [[i' m]|].
  - split.
    + by destruct (matches q x && _).
    + intros H. assert (Some (i', m) = None) as Hn; [|done].
      apply IH. intros j d Hj. by apply (H (S j)).
  - destruct (matches q x) eqn:Ex.
    + split; [done|]. intros H. specialize (H O x eq_refl). congruence.
    + split; [|done]. intros _ [|j] d; simpl; [by intros [= <-]|].
      by apply IH.
Qed.

Lemma least_match_intro q l i d :
  l !! i = Some d → matches q d = true →
  (∀ j d', j ≠ i → l !! j = Some d' → matches q d' = true →
           (Doc._id d < Doc._id d')%N) →
  least_match q l = Some (i, d).
Proof.
  intros Hl Hm Hothers.
  destruct (least_match q l) as [[i' d']|] eqn:E.
  - destruct (least_match_Some _ _ _ _ E) as (Hl' & Hm' & Hleast).
    destruct (decide (i' = i)) as [->|Hne].
    + rewrite Hl in Hl'. by injection Hl' as <-.
    + specialize (Hothers i' d' Hne Hl' Hm').
      specialize (Hleast i d Hl Hm). lia.
  - rewrite least_match_None in E. rewrite (E i d Hl) in Hm. done.
Qed.

Lemma matches_claimable now d :
  matches (Fields [(Fdeleted, IsNull); (Fvisible, Lte now)]) d = true
  ↔ Claimable now d.
Proof.
  destruct d as [i p v a t del deb]. unfold Claimable. simpl.
  destruct del; simpl; [naive_solver|].
  destruct v as [[ms|str]|]; simpl; rewrite ?andb_true_r.
  - rewrite Z.leb_le. naive_solver.
  - naive_solver.
  - naive_solver.
Qed.

Lemma matches_live t now d :
  matches (Fields [(Fack, Equals (BString t)); (Fvisible, Gt now);
                   (Fdeleted, IsNull)]) d = true
  ↔ Live t now d.
Proof.
  destruct d as [i p v a tr del deb]. unfold Live. simpl.
  destruct a as [a|]; simpl; [|naive_solver].
  destruct (String.eqb_spec a t) as [->|Hne]; simpl; [|naive_solver].
  destruct v as [[ms|str]|]; simpl; [|naive_solver..].
  destruct del; simpl; rewrite ?andb_true_r, ?andb_false_r; [naive_solver|].
  rewrite Z.ltb_lt. naive_solver.
Qed.

Lemma matches_waiting k d :
  matches (Fields [(Fack, IsNull); (Fdeleted, IsNull);
                   (Fdebounce, Equals (BString k))]) d = true
  ↔ Waiting k d.
Proof.
  destruct d as [i p v a tr del deb]. unfold Waiting. simpl.
  destruct a; simpl; [naive_solver|].
  destruct del; simpl; [naive_solver|].
  destruct deb as [k'|]; simpl; [|naive_solver].
  destruct (String.eqb_spec k' k) as [->|Hne]; simpl; naive_solver.
Qed.

Lemma not_true_iff_false' (b : bool) (P : Prop) :
  (b = true ↔ P) → (b = false ↔ ¬ P).
Proof. destruct b; naive_solver. Qed.

(** ** The claim of [get] *)

(** The document [d] once claimed at [now] under token [t] for
    [visibility] seconds. *)
Lemma claim_update now visibility t d :
  apply_update
    (mkUpdate (Some 1) [SetAck t; SetVisible (Date (nowPlusSecs now visibility))])
    d
  = Doc.mk (Doc._id d) (Doc.payload d)
           (Some (Date (now + visibility * 1000))) (Some t)
           (Some (default 0 (Doc.tries d) + 1)) (Doc.deleted d)
           (Doc.debounce d).
Proof. reflexivity. Qed.

Lemma get_nothing fuel self opts o k db :
  (∀ j d, docs (col_of db (Queue.col self)) !! j = Some d →
          ¬ Claimable (clock o k) d) →
  get (S fuel) self opts o k db = Some ([Success None], db).
Proof.
  intros Hnone. simpl. unfold findOneAndUpdate.
  assert (least_match (Fields [(Fdeleted, IsNull); (Fvisible, Lte (clock o k))])
            (docs (col_of db (Queue.col self))) = None) as ->; [|done].
  apply least_match_None. intros j d Hj.
  apply (not_true_iff_false' _ _ (matches_claimable _ _)). eauto.
Qed.

Lemma get_claim fuel self opts o k db i d :
  let c := col_of db (Queue.col self) in
  let now := clock o k in
  let visibility :=
    or_else (GetOptions.visibility (default GetOptions.empty opts))
            (Queue.visibility self) in
  docs c !! i = Some d → Claimable now d →
  (∀ j d', j ≠ i → docs c !! j = Some d' → Claimable now d' →
           (Doc._id d < Doc._id d')%N) →
  let d' := Doc.mk (Doc._id d) (Doc.payload d)
                   (Some (Date (now + visibility * 1000))) (Some (rand o k))
                   (Some (default 0 (Doc.tries d) + 1)) (Doc.deleted d)
                   (Doc.debounce d) in
  get (S fuel) self opts o k db
  = check_tries (get fuel self None o) self (external d') o k
      (<[Queue.col self := mkCollection (<[i := d']> (docs c)) (nextId c)]> db).
Proof.
  intros c now visibility Hi Hd Hothers d'. simpl. unfold findOneAndUpdate.
  fold c. fold now. fold visibility.
  rewrite (least_match_intro _ _ i d Hi).
  - by rewrite claim_update.
  - by apply matches_claimable.
  - intros j d0 Hne Hj Hm. apply (Hothers j d0 Hne Hj).
    by apply matches_claimable.
Qed.

(** C3.  [get] claims the claimable document (not deleted, visible at
    [now]) with the least [_id]: in the collection that document has its
    [tries] incremented, [ack] set to the token of the call and [visible]
    set to [now] plus the visibility in force; the message that enters the
    retry check is that document as [{id, ack, payload, tries}], and it is
    what the callback receives when [tries] does not exceed [maxRetries].
    With no claimable document the callback receives the empty result, no
    error, and nothing is written. *)
Theorem get_claims_oldest fuel self opts o k db :
  let c := col_of db (Queue.col self) in
  let now := clock o k in
  let effectiveVisibility :=
    or_else (GetOptions.visibility (default GetOptions.empty opts))
            (Queue.visibility self) in
  ((∀ j d, docs c !! j = Some d → ¬ Claimable now d) →
   get (S fuel) self opts o k db = Some ([Success None], db))
  ∧ (∀ i d,
       docs c !! i = Some d → Claimable now d →
       (∀ j d', j ≠ i → docs c !! j = Some d' → Claimable now d' →
                (Doc._id d < Doc._id d')%N) →
       let tries := default 0 (Doc.tries d) + 1 in
       let d' := Doc.mk (Doc._id d) (Doc.payload d)
                        (Some (Date (now + effectiveVisibility * 1000)))
                        (Some (rand o k)) (Some tries) None (Doc.debounce d) in
       let msg := Msg.mk (show_id (Doc._id d)) (rand o k) (Doc.payload d)
                         tries in
       let db' := <[Queue.col self :=
                      mkCollection (<[i := d']> (docs c)) (nextId c)]> db in
       get (S fuel) self opts o k db
       = check_tries (get fuel self None o) self msg o k db'
       ∧ (exceeds tries (Queue.maxRetries self) = false →
          get (S fuel) self opts o k db = Some ([Success (Some msg)], db'))).
Proof.
  intros c now effectiveVisibility. split; [apply get_nothing|].
  intros i d Hi Hd Hothers tries d' msg db'.
  pose proof (get_claim fuel self opts o k db i d Hi Hd Hothers) as Hget.
  cbv zeta in Hget. destruct Hd as [Hdel _]. rewrite Hdel in Hget.
  assert (get (S fuel) self opts o k db
          = check_tries (get fuel self None o) self msg o k db') as Hget'
    by exact Hget.
  split; [exact Hget'|].
  intros Hwithin. rewrite Hget'. unfold check_tries.
  change (Msg.tries msg) with tries. by rewrite Hwithin.
Qed.

Lemma get_claims_oldest_witness :
  fst <$> get 1 strict_queue None demo_oracle O (two_messages strict_queue)
  = Some [Success (Some (Msg.mk "0" "100" (VStr "a") 1))].
Proof.
  pose proof (get_claims_oldest O strict_queue None demo_oracle O
                (two_messages strict_queue)) as [_ Hclaim].
  specialize (Hclaim O (Doc.mk 0 (VStr "a") (Some (Date 0)) None None None None)
                eq_refl).
  destruct Hclaim as [_ Hget].
  - split; [reflexivity|]. exists 0. split; [reflexivity|].
    vm_compute. discriminate.
  - intros [|[|j]] d'; [done| |done].
    intros _ [= <-] _. reflexivity.
  - rewrite Hget; reflexivity.
Defined.

(** ** Messages tried too often *)

(** With a dead queue, the callback of [get] never receives a message
    whose [tries] exceeds [maxRetries]. *)
Lemma dead_queue_hides_over_retried fuel self dq opts o k db tr db' msg :
  Queue.deadQueue self = Some dq →
  get fuel self opts o k db = Some (tr, db') →
  Success (Some msg) ∈ tr →
  exceeds (Msg.tries msg) (Queue.maxRetries self) = false.
Proof.
  intros Hdq. revert opts k db tr db'.
  induction fuel as [|fuel IH]; intros opts k db tr db'; [done|].
  simpl. destruct (findOneAndUpdate _ _ _ _) as [[m|] c].
  - unfold check_tries. rewrite Hdq.
    destruct (exceeds (Msg.tries (external m)) _) eqn:Ex.
    + destruct (add dq _ _ _ _) as [[err|v] db1].
      { intros [= <- <-] Hin. apply list_elem_of_singleton in Hin. done. }
      destruct (ack self _ _ _) as [[err|v'] db2].
      { intros [= <- <-] Hin. apply list_elem_of_singleton in Hin. done. }
      apply IH.
    + intros [= <- <-] Hin. apply list_elem_of_singleton in Hin.
      by injection Hin as ->.
  - intros [= <- <-] Hin. apply list_elem_of_singleton in Hin. done.
Qed.

(** The dead queue at work: the message tried twice is put on the dead
    queue as it was claimed, deleted from the source queue, and the
    callback receives the next message only. *)
Lemma retired_to_dead_queue :
  match get 2 retiring_queue None late_oracle O (once_tried retiring_queue) with
  | Some (calls, db) =>
      calls = [Success (Some (Msg.mk "1" "203" (VStr "b") 1))]
      ∧ Doc.payload <$> docs (col_of db (Queue.col dead_queue))
        = [value_of_msg (Msg.mk "0" "200" (VStr "a") 2)]
      ∧ Doc.deleted <$> docs (col_of db (Queue.col retiring_queue))
        = [Some (Date 60002); None]
  | None => False
  end.
Proof. vm_compute. done. Qed.

(** C1 fails without a dead queue.  The queue allows one try and has no
    dead queue; its first message has been claimed once and the lease has
    run out.  [get] claims it again, sends the acknowledgement, and calls
    back with that very message, tried twice; once the acknowledgement is
    confirmed it calls back a second time, with the next message. *)
Theorem over_retried_message_is_delivered :
  Queue.deadQueue strict_queue = None
  ∧ Queue.maxRetries strict_queue = Limit 1
  ∧ fst <$> get 2 strict_queue None late_oracle O (once_tried strict_queue)
    = Some [Success (Some (Msg.mk "0" "200" (VStr "a") 2));
            Success (Some (Msg.mk "1" "202" (VStr "b") 1))]
  ∧ exceeds 2 (Queue.maxRetries strict_queue) = true.
Proof. split_and!; reflexivity. Qed.

(** ** Debounce *)

Lemma debounce_write_matched index k visible payload r c i d :
  first_match (Fields [(Fack, IsNull); (Fdeleted, IsNull);
                       (Fdebounce, Equals (BString k))]) (docs c)
  = Some (i, d) →
  write_one index (add_operation (Some k) visible payload) (r, c)
  = (mkBulkWriteResult (insertedIds r) (upsertedIds r) (S (modifiedCount r)),
     mkCollection
       (<[i := Doc.mk (Doc._id d) payload (Some (Date visible)) (Doc.ack d)
                      (Doc.tries d) (Doc.deleted d) (Doc.debounce d)]> (docs c))
       (nextId c)).
Proof. intros H. simpl. by rewrite H. Qed.

Lemma debounce_write_unmatched index k visible payload r c :
  first_match (Fields [(Fack, IsNull); (Fdeleted, IsNull);
                       (Fdebounce, Equals (BString k))]) (docs c)
  = None →
  write_one index (add_operation (Some k) visible payload) (r, c)
  = (mkBulkWriteResult (insertedIds r) (<[index := nextId c]> (upsertedIds r))
                       (modifiedCount r),
     mkCollection
       (docs c ++ [Doc.mk (nextId c) payload (Some (Date visible)) None None
                          None (Some k)])
       (N.succ (nextId c))).
Proof. intros H. simpl. by rewrite H. Qed.

(** A debounced write leaves alone every document that is not waiting
    under its key. *)
Lemma debounce_write_spares index k visible payload r c j d :
  docs c !! j = Some d → ¬ Waiting k d →
  docs (write_one index (add_operation (Some k) visible payload) (r, c)).2 !! j
  = Some d.
Proof.
  intros Hj Hd.
  destruct (first_match (Fields [(Fack, IsNull); (Fdeleted, IsNull);
                                 (Fdebounce, Equals (BString k))]) (docs c))
    as [[i d0]|] eqn:E.
  - rewrite (debounce_write_matched _ _ _ _ _ _ _ _ E). simpl.
    apply first_match_Some in E as (Hi & Hm & _).
    apply matches_waiting in Hm.
    destruct (decide (i = j)) as [->|Hne]; [congruence|].
    by rewrite list_lookup_insert_ne.
  - rewrite (debounce_write_unmatched _ _ _ _ _ _ E). simpl.
    by apply lookup_app_l_Some.
Qed.

Lemma write_from_cons index op ops acc :
  write_from index (op :: ops) acc
  = write_from (S index) ops (write_one index op acc).
Proof. reflexivity. Qed.

Lemma debounce_writes_spare k visible payloads index r c j d :
  docs c !! j = Some d → ¬ Waiting k d →
  docs (write_from index (map (add_operation (Some k) visible) payloads)
                   (r, c)).2 !! j
  = Some d.
Proof.
  revert index r c.
  induction payloads as [|p ps IH]; intros index r c Hj Hd; [done|].
  rewrite map_cons, write_from_cons.
  destruct (write_one index (add_operation (Some k) visible p) (r, c))
    as [r' c'] eqn:E.
  apply IH; [|done].
  pose proof (debounce_write_spares index k visible p r c j d Hj Hd) as H.
  by rewrite E in H.
Qed.

Lemma add_single self payload opts now db :
  isArray payload = false →
  let opts' := default AddOptions.empty opts in
  let delay := or_else (AddOptions.delay opts') (Queue.delay self) in
  let op := add_operation (debounce_key opts') (now + delay * 1000) payload in
  let c := col_of db (Queue.col self) in
  add self payload opts now db
  = (Success (VStr (show_slot (slot_of op c))),
     <[Queue.col self := written op c]> db).
Proof.
  intros Harr opts' delay op c. unfold add.
  fold opts'. fold delay. rewrite Harr. simpl negb. cbv iota.
  replace (if delay =? 0 then now else nowPlusSecs now delay)
    with (now + delay * 1000)
    by (unfold nowPlusSecs; destruct (Z.eqb_spec delay 0); lia).
  simpl length. simpl Nat.leb. cbv iota.
  simpl map. fold op. fold c. unfold bulkWrite, written. simpl write_from.
  destruct (write_one O op _) as [result c'] eqn:E. simpl.
  do 3 f_equal. unfold op in *. clear op.
  destruct (add_operation _ _ _) as [v p|filter update upsert]; simpl in *.
  - injection E as <- <-. unfold slot_at. simpl. by rewrite lookup_insert_eq.
  - destruct (first_match filter (docs c)) as [[i d]|].
    + by injection E as <- <-.
    + destruct upsert.
      * injection E as <- <-. unfold slot_at. simpl.
        by rewrite lookup_insert_eq.
      * by injection E as <- <-.
Qed.


(** The debounce test passes on the model: nothing to claim before the
    delay has passed, the second greeting is debounced, and the one message
    claimed afterwards carries the most recent payload. *)
Lemma debounce_test_passes :
  debounce_test
  = Some ([Success None], Success (VStr "(debounced)"), [Success None],
          [Success (Some (Msg.mk "0" "100" (VStr "Bonjour, monde!") 1))],
          Success "0"%string, [Success None]).
Proof. reflexivity. Qed.


(** ** Result of [add] *)

Lemma write_one_collection index op r c :
  (write_one index op (r, c)).2 = written op c.
Proof.
  unfold written. destruct op as [v p|filter update upsert]; simpl; [done|].
  destruct (first_match filter (docs c)) as [[i d]|]; [done|].
  by destruct upsert.
Qed.

Lemma write_one_slot index op r c :
  Unused r index →
  slot_at (write_one index op (r, c)).1 index = slot_of op c.
Proof.
  intros Hr. destruct (Hr index) as [Hi Hu]; [lia|]. unfold slot_at.
  destruct op as [v p|filter update upsert]; simpl.
  - by rewrite lookup_insert_eq.
  - destruct (first_match filter (docs c)) as [[i d]|]; simpl.
    + by rewrite Hi, Hu.
    + destruct upsert; simpl.
      * by rewrite Hi, lookup_insert_eq.
      * by rewrite Hi, Hu.
Qed.

Lemma write_one_elsewhere index op r c j :
  j ≠ index →
  insertedIds (write_one index op (r, c)).1 !! j = insertedIds r !! j
  ∧ upsertedIds (write_one index op (r, c)).1 !! j = upsertedIds r !! j.
Proof.
  intros Hne. destruct op as [v p|filter update upsert]; simpl.
  - by rewrite lookup_insert_ne.
  - destruct (first_match filter (docs c)) as [[i d]|]; simpl; [done|].
    destruct upsert; simpl; [|done]. by rewrite lookup_insert_ne.
Qed.

Lemma write_from_before ops index r c j :
  (j < index)%nat →
  insertedIds (write_from index ops (r, c)).1 !! j = insertedIds r !! j
  ∧ upsertedIds (write_from index ops (r, c)).1 !! j = upsertedIds r !! j.
Proof.
  revert index r c. induction ops as [|op ops IH]; intros index r c Hlt;
    [done|].
  rewrite write_from_cons.
  destruct (write_one index op (r, c)) as [r' c'] eqn:E.
  destruct (IH (S index) r' c') as [-> ->]; [lia|].
  pose proof (write_one_elsewhere index op r c j) as H.
  rewrite E in H. apply H. lia.
Qed.

(** The ids read off the result of a bulk write are those of its
    operations, in order. *)
Lemma write_from_slots ops index r c j s :
  Unused r index →
  slots_in_order ops c !! j = Some s →
  slot_at (write_from index ops (r, c)).1 (index + j) = s.
Proof.
  revert index r c j.
  induction ops as [|op ops IH]; intros index r c j Hr; [done|].
  rewrite write_from_cons.
  pose proof (write_one_slot index op r c Hr) as Hslot.
  pose proof (write_one_collection index op r c) as Hcol.
  pose proof (write_one_elsewhere index op r c) as Hrest.
  destruct (write_one index op (r, c)) as [r' c'] eqn:E.
  simpl in Hslot, Hcol, Hrest. subst c'.
  destruct j as [|j]; simpl.
  - intros [= <-]. rewrite Nat.add_0_r.
    unfold slot_at in *.
    destruct (write_from_before ops (S index) r' (written op c) index)
      as [-> ->]; [lia|]. done.
  - intros Hj. replace (index + S j)%nat with (S index + j)%nat by lia.
    apply IH; [|done].
    intros i Hi. destruct (Hrest i) as [-> ->]; [lia|]. apply Hr. lia.
Qed.

Lemma slots_in_order_length ops c :
  length (slots_in_order ops c) = length ops.
Proof.
  revert c. induction ops as [|op ops IH]; intros c; simpl; [done|].
  by rewrite IH.
Qed.

Lemma bulkWrite_slots {A} (f : A → WriteOp) (l : list A) c :
  imap (fun index _ => slot_at (bulkWrite (map f l) c).1 index) l
  = slots_in_order (map f l) c.
Proof.
  apply list_eq. intros j. rewrite list_lookup_imap.
  destruct (l !! j) as [x|] eqn:Hj; simpl.
  - assert (j < length (slots_in_order (map f l) c))%nat as Hlt.
    { rewrite slots_in_order_length, length_map.
      by apply lookup_lt_Some in Hj. }
    apply lookup_lt_is_Some in Hlt as [s Hs]. rewrite Hs. f_equal.
    apply (write_from_slots _ O _ _ j s); [|done].
    intros i _. split; apply lookup_empty.
  - symmetry. apply lookup_ge_None.
    rewrite slots_in_order_length, length_map.
    by apply lookup_ge_None in Hj.
Qed.

(** Plain inserts take consecutive ids. *)
Lemma insert_slots_consecutive visible payloads c :
  slots_in_order (map (add_operation None visible) payloads) c
  = imap (fun j _ => SlotId (nextId c + N.of_nat j)) payloads.
Proof.
  revert c. induction payloads as [|p ps IH]; intros c; [done|].
  simpl. rewrite N.add_0_r. f_equal.
  unfold written. simpl. rewrite IH. simpl.
  apply imap_ext. intros j x _. simpl. f_equal. lia.
Qed.

(** Once a debounced write is done, a document waits under its key. *)
Lemma debounce_write_leaves_waiting k visible payload c :
  ∃ i d, docs (written (add_operation (Some k) visible payload) c) !! i
         = Some d ∧ Waiting k d.
Proof.
  unfold written.
  destruct (first_match (Fields [(Fack, IsNull); (Fdeleted, IsNull);
                                 (Fdebounce, Equals (BString k))]) (docs c))
    as [[i d]|] eqn:E.
  - rewrite (debounce_write_matched _ _ _ _ _ _ _ _ E). simpl.
    apply first_match_Some in E as (Hi & Hm & _).
    apply matches_waiting in Hm. destruct Hm as (Ha & Hd & Hk).
    eexists i, _. split.
    + apply list_lookup_insert_eq. by apply lookup_lt_Some in Hi.
    + by split_and!.
  - rewrite (debounce_write_unmatched _ _ _ _ _ _ E). simpl.
    eexists (length (docs c)), _. split.
    + rewrite lookup_app_r, Nat.sub_diag; [reflexivity|lia].
    + by split_and!.
Qed.

Lemma debounce_slots_after k visible payloads c :
  (∃ i d, docs c !! i = Some d ∧ Waiting k d) →
  slots_in_order (map (add_operation (Some k) visible) payloads) c
  = map (fun _ => SlotText "(debounced)") payloads.
Proof.
  revert c. induction payloads as [|p ps IH]; intros c Hw; [done|].
  rewrite map_cons. simpl slots_in_order.
  rewrite IH by apply debounce_write_leaves_waiting.
  simpl. f_equal.
  destruct (first_match _ (docs c)) as [[i d]|] eqn:E; [done|].
  destruct Hw as (i & d & Hi & Hd).
  rewrite first_match_None in E. specialize (E i d Hi).
  apply matches_waiting in Hd. congruence.
Qed.

(** C6, as the code has it.  A successful [add] calls back with one
    string in every case.  Each element of the input has a slot, in input
    order: the id of the document inserted or upserted for it, or
    ["(debounced)"] when its upsert matched a waiting document.  For a
    single payload the string is its slot; for a batch it is the slots
    joined by commas, not an array.  Plain inserts take consecutive ids;
    under a debounce key every element after the first is debounced. *)
Theorem add_result_is_one_string self payload opts now db :
  let opts' := default AddOptions.empty opts in
  let delay := or_else (AddOptions.delay opts') (Queue.delay self) in
  let key := debounce_key opts' in
  let payloads := if isArray payload then elements payload else [payload] in
  let c := col_of db (Queue.col self) in
  let slots :=
    slots_in_order (map (add_operation key (now + delay * 1000)) payloads) c in
  payloads ≠ [] →
  (add self payload opts now db).1
  = Success (VStr (String.concat "," (map show_slot slots)))
  ∧ length slots = length payloads
  ∧ (key = None →
     slots = imap (fun j _ => SlotId (nextId c + N.of_nat j)) payloads)
  ∧ (∀ k, key = Some k →
          ((∃ i d, docs c !! i = Some d ∧ Waiting k d) →
           slots = map (fun _ => SlotText "(debounced)") payloads)
          ∧ ((∀ j d, docs c !! j = Some d → ¬ Waiting k d) →
             slots = SlotId (nextId c)
                     :: map (fun _ => SlotText "(debounced)") (tail payloads))).
Proof.
  intros opts' delay key payloads c slots Hne. split_and!.
  - unfold add. fold opts' delay key.
    replace (if delay =? 0 then now else nowPlusSecs now delay)
      with (now + delay * 1000)
      by (unfold nowPlusSecs; destruct (Z.eqb_spec delay 0); lia).
    replace (if negb (isArray payload) then [payload] else elements payload)
      with payloads by (unfold payloads; by destruct (isArray payload)).
    fold c.
    pose proof (bulkWrite_slots (add_operation key (now + delay * 1000))
                  payloads c) as Hslots.
    fold slots in Hslots.
    destruct payloads as [|p ps] eqn:Hps; [done|]. simpl Nat.leb. cbv iota.
    destruct (bulkWrite _ c) as [result c'] eqn:Hbw.
    cbn [fst] in Hslots. rewrite Hslots.
    destruct (isArray payload) eqn:Harr; simpl negb; cbv iota; [done|].
    injection Hps as <- <-. unfold slots.
    simpl. by destruct (add_operation _ _ _).
  - unfold slots. by rewrite slots_in_order_length, length_map.
  - intros Hkey. unfold slots. rewrite Hkey.
    apply insert_slots_consecutive.
  - intros k Hkey. unfold slots. rewrite Hkey. split.
    + apply debounce_slots_after.
    + intros Hnone. destruct payloads as [|p ps]; [done|].
      rewrite map_cons. simpl slots_in_order.
      rewrite debounce_slots_after by apply debounce_write_leaves_waiting.
      simpl. f_equal.
      destruct (first_match _ (docs c)) as [[i d]|] eqn:E; [|done].
      apply first_match_Some in E as (Hi & Hm & _).
      apply matches_waiting in Hm. by destruct (Hnone i d Hi).
Qed.

Lemma add_result_is_one_string_witness :
  (add strict_queue (VArr [VStr "a"; VStr "b"]) None 0 ∅).1
  = Success (VStr "0,1").
Proof.
  exact (proj1 (add_result_is_one_string strict_queue
                  (VArr [VStr "a"; VStr "b"]) None 0 ∅ ltac:(discriminate))).
Defined.

(** C6, as stated, fails on a batch: two payloads added to an empty queue
    give the string ["0,1"], not the array of the two ids. *)
Lemma add_batch_result_counterexample :
  (add strict_queue (VArr [VStr "a"; VStr "b"]) None 0 ∅).1
  = Success (VStr "0,1")
  ∧ (add strict_queue (VArr [VStr "a"; VStr "b"]) None 0 ∅).1
    ≠ Success (VArr [VStr "0"; VStr "1"]).
Proof. split; [reflexivity | discriminate]. Qed.

(** ** Leases *)

Lemma first_match_update q u c m c' :
  findOneAndUpdate q u None c = (Some m, c') →
  ∃ i d, first_match q (docs c) = Some (i, d) ∧ m = apply_update u d
         ∧ c' = mkCollection (<[i := m]> (docs c)) (nextId c).
Proof.
  unfold findOneAndUpdate.
  destruct (first_match q (docs c)) as [[i d]|]; [|done].
  intros [= <- <-]. by eexists _, _.
Qed.

Lemma least_match_update q u c m c' :
  findOneAndUpdate q u (Some By_id) c = (Some m, c') →
  ∃ i d, least_match q (docs c) = Some (i, d) ∧ m = apply_update u d
         ∧ c' = mkCollection (<[i := m]> (docs c)) (nextId c).
Proof.
  unfold findOneAndUpdate.
  destruct (least_match q (docs c)) as [[i d]|]; [|done].
  intros [= <- <-]. by eexists _, _.
Qed.

Lemma leased_first_match c t deadline oid now :
  Leased c t deadline oid → now < deadline →
  ∃ i d, first_match (Fields [(Fack, Equals (BString t)); (Fvisible, Gt now);
                              (Fdeleted, IsNull)]) (docs c) = Some (i, d)
         ∧ Doc._id d = oid ∧ Doc.ack d = Some t ∧ Doc.deleted d = None
         ∧ (∀ j d', docs c !! j = Some d' → Doc.ack d' = Some t → j = i).
Proof.
  intros (i & d & Hi & Hid & Hack & Hdel & Hvis & Huniq) Hnow.
  exists i, d. split_and!; try done.
  apply first_match_intro; [done| |].
  - apply matches_live. split_and!; eauto.
  - intros j d' Hlt Hj.
    apply (not_true_iff_false' _ _ (matches_live _ _ _)).
    intros (Hack' & _). specialize (Huniq j d' Hj Hack'). lia.
Qed.

Lemma leased_late_no_match c t deadline oid now :
  Leased c t deadline oid → deadline ≤ now →
  first_match (Fields [(Fack, Equals (BString t)); (Fvisible, Gt now);
                       (Fdeleted, IsNull)]) (docs c) = None.
Proof.
  intros (i & d & Hi & Hid & Hack & Hdel & Hvis & Huniq) Hnow.
  apply first_match_None. intros j d' Hj.
  apply (not_true_iff_false' _ _ (matches_live _ _ _)).
  intros (Hack' & _ & v & Hv & Hlt).
  specialize (Huniq j d' Hj Hack'). subst j.
  rewrite Hi in Hj. injection Hj as <-.
  rewrite Hvis in Hv. injection Hv as <-. lia.
Qed.

Lemma spent_no_match c t now :
  Spent c t →
  first_match (Fields [(Fack, Equals (BString t)); (Fvisible, Gt now);
                       (Fdeleted, IsNull)]) (docs c) = None.
Proof.
  intros Hspent. apply first_match_None. intros j d Hj.
  apply (not_true_iff_false' _ _ (matches_live _ _ _)).
  intros (Hack & Hdel & _). by apply (Hspent j d Hj Hack).
Qed.

(** A token that matches nothing: both calls fail and write nothing. *)
Lemma unidentified self t now db :
  first_match (Fields [(Fack, Equals (BString t)); (Fvisible, Gt now);
                       (Fdeleted, IsNull)])
              (docs (col_of db (Queue.col self))) = None →
  ack self t now db = (Failure (unidentified_ack t), db)
  ∧ ∀ opts, ping self t opts now db = (Failure (unidentified_ping t), db).
Proof.
  intros H. unfold ack, ping, findOneAndUpdate. by rewrite H.
Qed.

Lemma ack_leased self t deadline oid now db :
  Leased (col_of db (Queue.col self)) t deadline oid → now < deadline →
  ∃ db', ack self t now db = (Success (show_id oid), db')
         ∧ Spent (col_of db' (Queue.col self)) t.
Proof.
  intros Hl Hnow.
  destruct (leased_first_match _ _ _ _ _ Hl Hnow)
    as (i & d & Hfirst & Hid & Hack & Hdel & Huniq).
  eexists. unfold ack, findOneAndUpdate. rewrite Hfirst. simpl.
  rewrite Hid. split; [reflexivity|].
  rewrite col_of_insert_eq. intros j d'. simpl.
  rewrite list_lookup_insert_Some.
  intros [(-> & <- & _)|(Hne & Hj)] Hack'; [done|].
  specialize (Huniq j d' Hj Hack'). congruence.
Qed.

Lemma ping_leased self t deadline oid opts now db :
  Leased (col_of db (Queue.col self)) t deadline oid → now < deadline →
  ∃ db', ping self t opts now db = (Success (show_id oid), db')
         ∧ Leased (col_of db' (Queue.col self)) t (extended self now opts) oid.
Proof.
  intros Hl Hnow.
  destruct (leased_first_match _ _ _ _ _ Hl Hnow)
    as (i & d & Hfirst & Hid & Hack & Hdel & Huniq).
  apply first_match_Some in Hfirst as Hi. destruct Hi as (Hi & _).
  eexists. unfold ping, findOneAndUpdate. rewrite Hfirst. simpl.
  rewrite Hid. split; [reflexivity|].
  rewrite col_of_insert_eq. eexists i, _. simpl. split_and!.
  - apply list_lookup_insert_eq. by apply lookup_lt_Some in Hi.
  - done.
  - done.
  - done.
  - reflexivity.
  - intros j d'. rewrite list_lookup_insert_Some.
    intros [(-> & _)|(Hne & Hj)] Hack'; [done|]. by apply (Huniq j d').
Qed.

Lemma pings_in_time self t ps : ∀ deadline oid db,
  Leased (col_of db (Queue.col self)) t deadline oid →
  in_time self deadline ps →
  (pings self t ps db).1 = map (fun _ => Success (show_id oid)) ps
  ∧ Leased (col_of (pings self t ps db).2 (Queue.col self)) t
           (last_deadline self deadline ps) oid.
Proof.
  induction ps as [|[now opts] ps IH]; intros deadline oid db Hl Hin; [done|].
  destruct Hin as [Hnow Hin].
  destruct (ping_leased self t deadline oid opts now db Hl Hnow)
    as (db1 & Hping & Hl1).
  specialize (IH _ _ _ Hl1 Hin). simpl. rewrite Hping.
  destruct (pings self t ps db1) as [rs db2]. simpl in *.
  destruct IH as [-> IH]. done.
Qed.

(** ** Tokens on the documents *)

Lemma unminted_later o k k' c :
  Unminted o k c → (k ≤ k')%nat → Unminted o k' c.
Proof. intros H Hle n j d Hn. apply H. lia. Qed.

Lemma add_write_tokens index key visible payload r c j d' :
  docs (write_one index (add_operation key visible payload) (r, c)).2 !! j
  = Some d' →
  Doc.ack d' = None ∨ docs c !! j = Some d'.
Proof.
  destruct key as [k|]; simpl.
  - destruct (first_match _ (docs c)) as [[i d]|] eqn:E; simpl.
    + apply first_match_Some in E as (Hi & Hm & _).
      apply matches_waiting in Hm as (Hack & _).
      rewrite list_lookup_insert_Some.
      intros [(_ & <- & _)|(_ & Hj)]; [by left|by right].
    + rewrite lookup_app_Some.
      intros [Hj|(_ & Hj)]; [by right|left].
      apply list_lookup_singleton_Some in Hj as [_ <-]. done.
  - rewrite lookup_app_Some.
    intros [Hj|(_ & Hj)]; [by right|left].
    apply list_lookup_singleton_Some in Hj as [_ <-]. done.
Qed.

Lemma add_writes_tokens key visible payloads index r c j d' :
  docs (write_from index (map (add_operation key visible) payloads)
                   (r, c)).2 !! j = Some d' →
  Doc.ack d' = None ∨ docs c !! j = Some d'.
Proof.
  revert index r c.
  induction payloads as [|p ps IH]; intros index r c; [by right|].
  rewrite map_cons, write_from_cons.
  destruct (write_one index (add_operation key visible p) (r, c))
    as [r' c'] eqn:E.
  intros Hj. destruct (IH _ _ _ Hj) as [Hnone|Hj']; [by left|].
  apply (add_write_tokens index key visible p r c). by rewrite E.
Qed.

(** [add] puts no token on a document. *)
Lemma add_tokens self payload opts now db ref j d' :
  docs (col_of (add self payload opts now db).2 ref) !! j = Some d' →
  Doc.ack d' = None ∨ docs (col_of db ref) !! j = Some d'.
Proof.
  destruct (decide ((if isArray payload then elements payload
                     else [payload]) = [])) as [Hnil|Hne].
  - destruct payload as [| | | | |items|]; try discriminate Hnil.
    simpl in Hnil. subst items. by right.
  - rewrite (add_writes self payload opts now db Hne).
    destruct (decide (Queue.col self = ref)) as [<-|Hother].
    + rewrite col_of_insert_eq. apply add_writes_tokens.
    + rewrite col_of_insert_ne by done. by right.
Qed.

Lemma add_unminted self payload opts now db o k ref :
  Unminted o k (col_of db ref) →
  Unminted o k (col_of (add self payload opts now db).2 ref).
Proof.
  intros H n j d' Hn Hj.
  destruct (add_tokens _ _ _ _ _ _ _ _ Hj) as [Hnone|Hj'].
  - by rewrite Hnone.
  - by apply (H n j d' Hn).
Qed.

(** [ack] leaves the tokens where they are. *)
Lemma ack_tokens self t now db ref j d' :
  docs (col_of (ack self t now db).2 ref) !! j = Some d' →
  ∃ d, docs (col_of db ref) !! j = Some d ∧ Doc.ack d' = Doc.ack d.
Proof.
  unfold ack, findOneAndUpdate.
  destruct (first_match _ _) as [[i d]|] eqn:E; simpl; [|by eauto].
  apply first_match_Some in E as (Hi & _).
  destruct (decide (Queue.col self = ref)) as [<-|Hother].
  - rewrite col_of_insert_eq. simpl. rewrite list_lookup_insert_Some.
    intros [(<- & <- & _)|(_ & Hj)]; eauto.
  - rewrite col_of_insert_ne by done. eauto.
Qed.

Lemma ack_unminted self t now db o k ref :
  Unminted o k (col_of db ref) →
  Unminted o k (col_of (ack self t now db).2 ref).
Proof.
  intros H n j d' Hn Hj.
  destruct (ack_tokens _ _ _ _ _ _ _ Hj) as (d & Hd & ->).
  by apply (H n j d Hn).
Qed.

(** The claim of round trip [k] puts the token of that round trip on one
    document. *)
Lemma claim_unminted o k c i (d' : Doc.t) n :
  (∀ a b, rand o a = rand o b → a = b) →
  Unminted o k c → Doc.ack d' = Some (rand o k) →
  Unminted o (S k) (mkCollection (<[i := d']> (docs c)) n).
Proof.
  intros Hinj H Hack m j d0 Hm. simpl. rewrite list_lookup_insert_Some.
  intros [(_ & <- & _)|(_ & Hj)].
  - rewrite Hack. intros [= Heq]. apply Hinj in Heq. lia.
  - apply (H m j d0); [lia|done].
Qed.

Lemma claim_leased o k c i d now visibility :
  Unminted o k c → docs c !! i = Some d → Claimable now d →
  Leased
    (mkCollection
       (<[i := apply_update
                 (mkUpdate (Some 1)
                    [SetAck (rand o k);
                     SetVisible (Date (nowPlusSecs now visibility))]) d]>
          (docs c))
       (nextId c))
    (rand o k) (now + visibility * 1000) (Doc._id d).
Proof.
  intros H Hi [Hdel _]. rewrite claim_update.
  eexists i, _. simpl. split_and!.
  - apply list_lookup_insert_eq. by apply lookup_lt_Some in Hi.
  - done.
  - done.
  - done.
  - done.
  - intros j d0. rewrite list_lookup_insert_Some.
    intros [(-> & _)|(_ & Hj)] Hack; [done|].
    by destruct (H k j d0 (le_n k) Hj).
Qed.

(** ** What [get] hands out *)

(** A call of [get] that completes has called back. *)
Lemma get_calls_back fuel self o : ∀ opts k db calls db',
  get fuel self opts o k db = Some (calls, db') → calls ≠ [].
Proof.
  induction fuel as [|fuel IH]; intros opts k db calls db'; [done|].
  simpl. destruct (findOneAndUpdate _ _ _ _) as [[m|] c].
  - unfold check_tries.
    destruct (exceeds _ _); [|by intros [= <- <-]].
    destruct (Queue.deadQueue self) as [dq|].
    + destruct (add dq _ _ _ _) as [[err|v] db1]; [by intros [= <- <-]|].
      destruct (ack self _ _ _) as [[err|v'] db2]; [by intros [= <- <-]|].
      apply IH.
    + destruct (ack self _ _ _) as [[err|v'] db1]; simpl.
      * by intros [= <- <-].
      * destruct (get fuel self None o _ db1) as [[calls1 db2]|]; [|done].
        simpl. by intros [= <- <-].
  - by intros [= <- <-].
Qed.

(** The message of the last callback of [get] holds a lease. *)
Lemma get_grants_lease fuel self o :
  (∀ a b, rand o a = rand o b → a = b) →
  ∀ opts k db calls db' msg,
    Unminted o k (col_of db (Queue.col self)) →
    get fuel self opts o k db = Some (calls, db') →
    last calls = Some (Success (Some msg)) →
    ∃ deadline oid,
      Leased (col_of db' (Queue.col self)) (Msg.ack msg) deadline oid
      ∧ Msg.id msg = show_id oid.
Proof.
  intros Hinj.
  induction fuel as [|fuel IH]; intros opts k db calls db' msg Hun; [done|].
  simpl.
  destruct (findOneAndUpdate _ _ _ _) as [[m|] c] eqn:E;
    [|by intros [= <- <-]].
  apply least_match_update in E as (i & d & Hleast & Hm & Hc).
  apply least_match_Some in Hleast as (Hi & Hmatch & _).
  apply matches_claimable in Hmatch.
  pose proof (claim_leased o k _ i d (clock o k)
                (or_else (GetOptions.visibility
                            (default GetOptions.empty opts))
                         (Queue.visibility self)) Hun Hi Hmatch) as Hl.
  rewrite <- Hm, <- Hc in Hl.
  assert (Unminted o (S k) c) as Hun'.
  { rewrite Hc. apply claim_unminted; [done..|]. by rewrite Hm. }
  assert (Msg.ack (external m) = rand o k) as Hack by (by rewrite Hm).
  assert (Msg.id (external m) = show_id (Doc._id d)) as Hid
    by (by rewrite Hm).
  clear Hm Hc.
  unfold check_tries. destruct (exceeds _ _).
  - destruct (Queue.deadQueue self) as [dq|].
    + destruct (add dq _ _ _ _) as [[err|v] db1] eqn:Eadd;
        [by intros [= <- <-]|].
      destruct (ack self _ _ db1) as [[err|v'] db2] eqn:Eack;
        [by intros [= <- <-]|].
      apply IH.
      replace db2 with (ack self (Msg.ack (external m)) (clock o (k + 2)) db1).2
        by (by rewrite Eack).
      apply ack_unminted.
      replace db1 with (add dq (value_of_msg (external m)) None
                            (clock o (k + 1))
                            (<[Queue.col self := c]> db)).2
        by (by rewrite Eadd).
      apply add_unminted. rewrite col_of_insert_eq.
      apply (unminted_later o (S k)); [done|lia].
    + destruct (ack self _ _ _) as [[err|v'] db1] eqn:Eack; simpl;
        [by intros [= <- <-]|].
      destruct (get fuel self None o _ db1) as [[calls1 db2]|] eqn:Eget;
        [|done].
      simpl. intros [= <- <-] Hlast.
      pose proof (get_calls_back _ _ _ _ _ _ _ _ Eget) as Hne.
      destruct calls1 as [|call calls1]; [done|].
      refine (IH _ _ _ _ _ _ _ Eget Hlast).
      replace db1 with (ack self (Msg.ack (external m)) (clock o (k + 1))
                            (<[Queue.col self := c]> db)).2
        by (by rewrite Eack).
      apply ack_unminted. rewrite col_of_insert_eq.
      apply (unminted_later o (S k)); [done|lia].
  - intros [= <- <-] [= <-]. rewrite Hack, Hid, col_of_insert_eq. eauto.
Qed.

Lemma show_id_inj a b : show_id a = show_id b → a = b.
Proof.
  assert (∀ n, N.of_hex_uint <$> NilZero.uint_of_string (show_id n) = Some n)
    as Hread.
  { intros n. unfold show_id.
    destruct (N.to_hex_uint n) eqn:E;
      try (rewrite NilZero.usu by discriminate; rewrite <- E;
           cbn [fmap option_fmap option_map];
           by rewrite HexadecimalN.Unsigned.of_to).
    simpl. rewrite <- (HexadecimalN.Unsigned.of_to n), E. done. }
  intros Heq. pose proof (Hread a) as Ha. rewrite Heq, Hread in Ha.
  by injection Ha.
Qed.

Lemma leased_visible c t deadline oid :
  Leased c t deadline oid → visible_under t (docs c) = Some (Date deadline).
Proof.
  intros (i & d & Hi & _ & Hack & _ & <- & Huniq).
  revert i Hi Huniq. generalize (docs c). clear c.
  induction l as [|x l IH]; intros i Hi Huniq; [done|]. simpl.
  destruct i as [|i]; simpl in Hi.
  - injection Hi as ->. by rewrite decide_True.
  - destruct (decide (Doc.ack x = Some t)) as [Hx|Hx].
    + by specialize (Huniq O x eq_refl Hx).
    + apply (IH i Hi). intros j d' Hj Hd'.
      specialize (Huniq (S j) d' Hj Hd'). lia.
Qed.

(** C2.  Let [get] complete and hand a message to its callback last, the
    tokens of the oracle being distinct and new to the collection.  The
    token [t] of the message then stands for a lease whose deadline is the
    [visible] of its document.  Any series of pings of [t], each before
    the deadline then in force, succeeds with the id of the message and
    moves the deadline; after them, [ack] of [t] before the deadline
    succeeds with that id, and from then on every [ack] and [ping] of [t]
    fails with the unidentified-ack error that ends in [t]; at or after the
    deadline, without [ack], both fail with that error as well. *)
Theorem lease_protocol fuel self opts o k db calls db1 msg :
  (∀ a b, rand o a = rand o b → a = b) →
  Unminted o k (col_of db (Queue.col self)) →
  get fuel self opts o k db = Some (calls, db1) →
  last calls = Some (Success (Some msg)) →
  let t := Msg.ack msg in
  ∃ deadline,
    visible_under t (docs (col_of db1 (Queue.col self)))
    = Some (Date deadline)
    ∧ ∀ ps, in_time self deadline ps →
        let db2 := (pings self t ps db1).2 in
        let deadline' := last_deadline self deadline ps in
        (pings self t ps db1).1 = map (fun _ => Success (Msg.id msg)) ps
        ∧ (∀ now, now < deadline' →
             ∃ db3, ack self t now db2 = (Success (Msg.id msg), db3)
                    ∧ ∀ now' opts',
                        ack self t now' db3
                        = (Failure (unidentified_ack t), db3)
                        ∧ ping self t opts' now' db3
                          = (Failure (unidentified_ping t), db3))
        ∧ (∀ now opts', deadline' ≤ now →
             ack self t now db2 = (Failure (unidentified_ack t), db2)
             ∧ ping self t opts' now db2
               = (Failure (unidentified_ping t), db2)).
Proof.
  intros Hinj Hun Hget Hlast t.
  destruct (get_grants_lease fuel self o Hinj _ _ _ _ _ _ Hun Hget Hlast)
    as (deadline & oid & Hl & Hid).
  fold t in Hl. exists deadline. split; [by eapply leased_visible|].
  intros ps Hin db2 deadline'. rewrite Hid.
  destruct (pings_in_time self t ps deadline oid db1 Hl Hin) as [Hpings Hl2].
  fold db2 deadline' in Hl2. split_and!.
  - done.
  - intros now Hnow.
    destruct (ack_leased self t deadline' oid now db2 Hl2 Hnow)
      as (db3 & Hack & Hspent).
    exists db3. split; [done|]. intros now' opts'.
    destruct (unidentified self t now' db3 (spent_no_match _ _ _ Hspent))
      as [H1 H2].
    by split.
  - intros now opts' Hnow.
    destruct (unidentified self t now db2
                (leased_late_no_match _ _ _ _ _ Hl2 Hnow)) as [H1 H2].
    by split.
Qed.

Lemma lease_protocol_witness :
  (ack strict_queue "100" 2000 claimed).1 = Success "0"%string.
Proof.
  destruct (lease_protocol 1 strict_queue None demo_oracle O
              (two_messages strict_queue)
              [Success (Some (Msg.mk "0" "100" (VStr "a") 1))] claimed
              (Msg.mk "0" "100" (VStr "a") 1))
    as (deadline & Hdl & H).
  - intros a b Heq. apply show_id_inj in Heq. lia.
  - intros n j d _.
    assert (docs (col_of (two_messages strict_queue) (Queue.col strict_queue))
            = [Doc.mk 0 (VStr "a") (Some (Date 0)) None None None None;
               Doc.mk 1 (VStr "b") (Some (Date 0)) None None None None])
      as -> by reflexivity.
    destruct j as [|[|j]]; [| |done]; by intros [= <-].
  - reflexivity.
  - reflexivity.
  - vm_compute in Hdl. injection Hdl as <-.
    destruct (H [] I) as (_ & Hack & _).
    destruct (Hack 2000) as (db3 & Hok & _); [simpl; lia|].
    simpl in Hok. by rewrite Hok.
Defined.

(** ** Deleted stays deleted *)

Lemma kept_refl l : Kept l l.
Proof. intros i d Hi. by exists d. Qed.

Lemma kept_trans l1 l2 l3 : Kept l1 l2 → Kept l2 l3 → Kept l1 l3.
Proof.
  intros H12 H23 i d Hi.
  destruct (H12 i d Hi) as (d2 & Hi2 & Hid2 & Hdel2).
  destruct (H23 i d2 Hi2) as (d3 & Hi3 & Hid3 & Hdel3).
  exists d3. split_and!; [done|congruence|auto].
Qed.

Lemma kept_app l l' : Kept l (l ++ l').
Proof. intros i d Hi. exists d. split_and!; [|done..]. by apply lookup_app_l_Some. Qed.

Lemma kept_insert l i d d' :
  l !! i = Some d → Doc._id d' = Doc._id d →
  (Doc.deleted d ≠ None → Doc.deleted d' ≠ None) →
  Kept l (<[i := d']> l).
Proof.
  intros Hi Hid Hdel j d0 Hj.
  destruct (decide (i = j)) as [<-|Hne].
  - exists d'. rewrite Hi in Hj. injection Hj as <-. split_and!; [|done..].
    apply list_lookup_insert_eq. by apply lookup_lt_Some in Hi.
  - exists d0. by rewrite list_lookup_insert_ne.
Qed.

(** No assignment of an update removes [deleted] or touches [_id]. *)
Lemma assign_keeps d a :
  Doc._id (assign d a) = Doc._id d
  ∧ (Doc.deleted d ≠ None → Doc.deleted (assign d a) ≠ None).
Proof. by destruct a. Qed.

Lemma apply_update_keeps u d :
  Doc._id (apply_update u d) = Doc._id d
  ∧ (Doc.deleted d ≠ None → Doc.deleted (apply_update u d) ≠ None).
Proof.
  unfold apply_update.
  assert (∀ l d0, Doc._id (foldl assign d0 l) = Doc._id d0
                  ∧ (Doc.deleted d0 ≠ None →
                     Doc.deleted (foldl assign d0 l) ≠ None)) as Hfold.
  { induction l as [|a l IH]; intros d0; [done|]. simpl.
    destruct (IH (assign d0 a)) as [Hid Hdel].
    destruct (assign_keeps d0 a) as [Hid' Hdel'].
    split; [congruence|auto]. }
  destruct (inc_tries u) as [n|]; [|apply Hfold].
  destruct (Hfold (set u) (Doc.inc_tries n d)) as [Hid Hdel]. by split.
Qed.

Lemma findOneAndUpdate_keeps q u sort c :
  Kept (docs c) (docs (findOneAndUpdate q u sort c).2).
Proof.
  unfold findOneAndUpdate.
  destruct sort as [[]|].
  - destruct (least_match q (docs c)) as [[i d]|] eqn:E; [|apply kept_refl].
    apply least_match_Some in E as (Hi & _).
    destruct (apply_update_keeps u d). by apply (kept_insert _ _ d).
  - destruct (first_match q (docs c)) as [[i d]|] eqn:E; [|apply kept_refl].
    apply first_match_Some in E as (Hi & _).
    destruct (apply_update_keeps u d). by apply (kept_insert _ _ d).
Qed.

Lemma write_one_keeps index op r c :
  Kept (docs c) (docs (write_one index op (r, c)).2).
Proof.
  destruct op as [v p|filter update upsert]; simpl; [apply kept_app|].
  destruct (first_match filter (docs c)) as [[i d]|] eqn:E; simpl.
  - apply first_match_Some in E as (Hi & _).
    destruct (apply_update_keeps update d). by apply (kept_insert _ _ d).
  - destruct upsert; simpl; [apply kept_app|apply kept_refl].
Qed.

Lemma write_from_keeps ops : ∀ index r c,
  Kept (docs c) (docs (write_from index ops (r, c)).2).
Proof.
  induction ops as [|op ops IH]; intros index r c; [apply kept_refl|].
  rewrite write_from_cons.
  pose proof (write_one_keeps index op r c) as H1.
  destruct (write_one index op (r, c)) as [r' c'].
  eapply kept_trans; [exact H1|apply IH].
Qed.

Lemma keptdb_refl db : KeptDb db db.
Proof. intros ref. apply kept_refl. Qed.

Lemma keptdb_trans db1 db2 db3 : KeptDb db1 db2 → KeptDb db2 db3 → KeptDb db1 db3.
Proof. intros H12 H23 ref. eapply kept_trans; [apply H12|apply H23]. Qed.

Lemma keptdb_insert (db : Db) ref c :
  Kept (docs (col_of db ref)) (docs c) → KeptDb db (<[ref := c]> db).
Proof.
  intros H ref'. destruct (decide (ref = ref')) as [<-|Hne].
  - by rewrite col_of_insert_eq.
  - rewrite col_of_insert_ne by done. apply kept_refl.
Qed.

Lemma add_keeps self payload opts now db :
  KeptDb db (add self payload opts now db).2.
Proof.
  destruct (decide ((if isArray payload then elements payload
                     else [payload]) = [])) as [Hnil|Hne].
  - destruct payload as [| | | | |items|]; try discriminate Hnil.
    simpl in Hnil. subst items. apply keptdb_refl.
  - rewrite (add_writes self payload opts now db Hne).
    apply keptdb_insert, write_from_keeps.
Qed.

Lemma ping_keeps self t opts now db : KeptDb db (ping self t opts now db).2.
Proof.
  unfold ping.
  pose proof (findOneAndUpdate_keeps
    (Fields [(Fack, Equals (BString t)); (Fvisible, Gt now); (Fdeleted, IsNull)])
    (mkUpdate None
       [SetVisible (Date (nowPlusSecs now
          (or_else (PingOptions.visibility (default PingOptions.empty opts))
                   (Queue.visibility self))))])
    None (col_of db (Queue.col self))) as H.
  destruct (findOneAndUpdate _ _ _ _) as [[m|] c]; simpl in *.
  - by apply keptdb_insert.
  - apply keptdb_refl.
Qed.

Lemma ack_keeps self t now db : KeptDb db (ack self t now db).2.
Proof.
  unfold ack.
  pose proof (findOneAndUpdate_keeps
    (Fields [(Fack, Equals (BString t)); (Fvisible, Gt now); (Fdeleted, IsNull)])
    (mkUpdate None [SetDeleted (Date now)])
    None (col_of db (Queue.col self))) as H.
  destruct (findOneAndUpdate _ _ _ _) as [[m|] c]; simpl in *.
  - by apply keptdb_insert.
  - apply keptdb_refl.
Qed.

Lemma migrate_keeps parse self db : KeptDb db (migrate parse self db).2.
Proof.
  unfold migrate. destruct (_ <=? _)%nat; [apply keptdb_refl|].
  unfold bulkWrite.
  match goal with
  | |- context [write_from O ?ops (?r, ?c)] =>
      pose proof (write_from_keeps ops O r c) as H;
      destruct (write_from O ops (r, c)) as [result c']
  end.
  by apply keptdb_insert.
Qed.

Lemma get_keeps fuel self o : ∀ opts k db calls db',
  get fuel self opts o k db = Some (calls, db') → KeptDb db db'.
Proof.
  induction fuel as [|fuel IH]; intros opts k db calls db'; [done|].
  simpl.
  match goal with
  | |- context [findOneAndUpdate ?q ?u ?s ?c] =>
      pose proof (findOneAndUpdate_keeps q u s c) as Hclaim;
      destruct (findOneAndUpdate q u s c) as [[m|] c1]
  end; simpl in Hclaim; [|intros [= <- <-]; apply keptdb_refl].
  apply keptdb_insert in Hclaim.
  unfold check_tries. destruct (exceeds _ _).
  - destruct (Queue.deadQueue self) as [dq|].
    + match goal with
      | |- context [add dq ?p ?x ?n ?b] =>
          pose proof (add_keeps dq p x n b) as Hadd;
          destruct (add dq p x n b) as [[err|v] db1]
      end; simpl in Hadd.
      { intros [= <- <-]. by eapply keptdb_trans. }
      match goal with
      | |- context [ack self ?t ?n ?b] =>
          pose proof (ack_keeps self t n b) as Hack;
          destruct (ack self t n b) as [[err|v'] db2]
      end; simpl in Hack.
      { intros [= <- <-]. eapply keptdb_trans; [|exact Hack].
        by eapply keptdb_trans. }
      intros Hget. apply IH in Hget.
      eapply keptdb_trans; [|exact Hget].
      eapply keptdb_trans; [|exact Hack]. by eapply keptdb_trans.
    + match goal with
      | |- context [ack self ?t ?n ?b] =>
          pose proof (ack_keeps self t n b) as Hack;
          destruct (ack self t n b) as [[err|v'] db1]
      end; simpl in Hack; simpl.
      { intros [= <- <-]. by eapply keptdb_trans. }
      destruct (get fuel self None o _ db1) as [[calls1 db2]|] eqn:Eget;
        [|done].
      simpl. intros [= <- <-]. apply IH in Eget.
      eapply keptdb_trans; [|exact Eget]. by eapply keptdb_trans.
  - by intros [= <- <-].
Qed.

Lemma commit_keeps c db db' : commit c db = Some db' → KeptDb db db'.
Proof.
  destruct c as [self payload opts now|fuel self opts o k|self t opts now
                |self t now|parse self]; simpl.
  - intros [= <-]. apply add_keeps.
  - destruct (get fuel self opts o k db) as [[calls db1]|] eqn:E; [|done].
    simpl. intros [= <-]. by eapply get_keeps.
  - intros [= <-]. apply ping_keeps.
  - intros [= <-]. apply ack_keeps.
  - intros [= <-]. apply migrate_keeps.
Qed.

Lemma run_keeps calls : ∀ db db', run calls db = Some db' → KeptDb db db'.
Proof.
  induction calls as [|c calls IH]; intros db db'; simpl.
  - intros [= <-]. apply keptdb_refl.
  - destruct (commit c db) as [db1|] eqn:E; [|done].
    intros Hrun. eapply keptdb_trans; [by eapply commit_keeps|by apply IH].
Qed.

(** C8.  Through any sequence of completed calls of [add], [get], [ping],
    [ack] and [migrate], a document whose [deleted] is set stays in the
    collection, under the same [_id], with [deleted] set; [clean] removes
    documents and changes none. *)
Theorem deleted_is_never_cleared :
  (∀ calls db db' ref i d,
     run calls db = Some db' →
     docs (col_of db ref) !! i = Some d → Doc.deleted d ≠ None →
     ∃ d', docs (col_of db' ref) !! i = Some d'
           ∧ Doc._id d' = Doc._id d ∧ Doc.deleted d' ≠ None)
  ∧ (∀ self db ref d,
       d ∈ docs (col_of (clean self db) ref) → d ∈ docs (col_of db ref)).
Proof.
  split.
  - intros calls db db' ref i d Hrun Hi Hdel.
    destruct (run_keeps calls db db' Hrun ref i d Hi) as (d' & Hi' & Hid & Hd).
    exists d'. auto.
  - intros self db ref d. unfold clean.
    destruct (decide (Queue.col self = ref)) as [<-|Hne].
    + rewrite col_of_insert_eq. simpl.
      rewrite !list_elem_of_In, filter_In. tauto.
    + by rewrite col_of_insert_ne.
Qed.

Lemma deleted_is_never_cleared_witness :
  ∃ db', run later_calls acked = Some db'
         ∧ ∃ d', docs (col_of db' (Queue.col strict_queue)) !! O = Some d'
                 ∧ Doc._id d' = 0%N ∧ Doc.deleted d' ≠ None.
Proof.
  assert (∃ db', run later_calls acked = Some db') as [db' Hrun]
    by (vm_compute; eexists; reflexivity).
  exists db'. split; [done|].
  apply (proj1 deleted_is_never_cleared later_calls acked db'
               (Queue.col strict_queue) O
               (Doc.mk 0 (VStr "a") (Some (Date 31000)) (Some "100"%string)
                       (Some 1) (Some (Date 2000)) None) Hrun).
  - reflexivity.
  - discriminate.
Defined.


(** ** Completion of [get] *)

Lemma undeleted_insert_same l i d d' n n' :
  l !! i = Some d → Doc.deleted d' = Doc.deleted d →
  undeleted (mkCollection (<[i := d']> l) n) = undeleted (mkCollection l n').
Proof.
  unfold undeleted. simpl. revert i.
  induction l as [|x l IH]; intros i Hi Hdel; [done|].
  destruct i as [|i]; simpl in *.
  - injection Hi as ->. rewrite Hdel.
    by destruct (bool_decide (Doc.deleted d = None)).
  - destruct (bool_decide (Doc.deleted x = None)); simpl;
      by rewrite (IH i Hi Hdel).
Qed.

Lemma undeleted_insert_deleted l i d d' n n' :
  l !! i = Some d → Doc.deleted d = None → Doc.deleted d' ≠ None →
  S (undeleted (mkCollection (<[i := d']> l) n))
  = undeleted (mkCollection l n').
Proof.
  unfold undeleted. simpl. revert i.
  induction l as [|x l IH]; intros i Hi Hdel Hdel'; [done|].
  destruct i as [|i]; simpl in *.
  - injection Hi as ->.
    rewrite (bool_decide_eq_true_2 _ Hdel), (bool_decide_eq_false_2 _ Hdel').
    done.
  - destruct (bool_decide (Doc.deleted x = None)); simpl;
      by rewrite <- (IH i Hi Hdel Hdel').
Qed.

Lemma add_elsewhere self payload opts now db ref :
  Queue.col self ≠ ref →
  col_of (add self payload opts now db).2 ref = col_of db ref.
Proof.
  intros Hne.
  destruct (decide ((if isArray payload then elements payload
                     else [payload]) = [])) as [Hnil|Hsome].
  - destruct payload as [| | | | |items|]; try discriminate Hnil.
    simpl in Hnil. by subst items.
  - rewrite (add_writes self payload opts now db Hsome).
    by rewrite col_of_insert_ne.
Qed.

Lemma ack_success_undeleted self t now db id db' :
  ack self t now db = (Success id, db') →
  S (undeleted (col_of db' (Queue.col self)))
  = undeleted (col_of db (Queue.col self)).
Proof.
  unfold ack, findOneAndUpdate.
  destruct (first_match _ _) as [[i d]|] eqn:E; [|done].
  intros [= _ <-]. rewrite col_of_insert_eq.
  apply first_match_Some in E as (Hi & Hm & _).
  apply matches_live in Hm as (_ & Hdel & _).
  destruct (col_of db (Queue.col self)) as [l n]. simpl in *.
  by apply (undeleted_insert_deleted l i d).
Qed.

(** When the dead queue, if any, is another collection, [get] completes
    within as many claims as there are documents not deleted, plus one. *)
Lemma get_completes self o :
  (∀ dq, Queue.deadQueue self = Some dq → Queue.col dq ≠ Queue.col self) →
  ∀ fuel opts k db,
    (undeleted (col_of db (Queue.col self)) < fuel)%nat →
    is_Some (get fuel self opts o k db).
Proof.
  intros Hdq. induction fuel as [|fuel IH]; intros opts k db Hlt; [lia|].
  simpl.
  destruct (findOneAndUpdate _ _ _ _) as [[m|] c] eqn:E; [|done].
  apply least_match_update in E as (i & d & Hleast & Hm & Hc).
  apply least_match_Some in Hleast as (Hi & _).
  assert (undeleted c = undeleted (col_of db (Queue.col self))) as Hsame.
  { rewrite Hc. destruct (col_of db (Queue.col self)) as [l n]. simpl in *.
    apply (undeleted_insert_same l i d); [done|]. by rewrite Hm. }
  unfold check_tries. destruct (exceeds _ _); [|done].
  destruct (Queue.deadQueue self) as [dq|] eqn:Edq.
  - destruct (add dq _ _ _ _) as [[err|v] db1] eqn:Eadd; [done|].
    destruct (ack self _ _ db1) as [[err|v'] db2] eqn:Eack; [done|].
    apply IH. apply ack_success_undeleted in Eack.
    assert (col_of db1 (Queue.col self) = c) as Hc1.
    { replace db1 with (add dq (value_of_msg (external m)) None
                            (clock o (k + 1))
                            (<[Queue.col self := c]> db)).2
        by (by rewrite Eadd).
      rewrite add_elsewhere by (by apply Hdq).
      apply col_of_insert_eq. }
    rewrite Hc1 in Eack. lia.
  - destruct (ack self _ _ _) as [[err|v'] db1] eqn:Eack; simpl; [done|].
    apply ack_success_undeleted in Eack. rewrite col_of_insert_eq in Eack.
    destruct (IH None (k + 2)%nat db1) as [r Hr]; [lia|].
    by rewrite Hr.
Qed.

(** Without a dead queue, a message claimed with more tries than
    [maxRetries] is the first thing the callback receives. *)
Lemma no_dead_queue_delivers_over_retried fuel self msg o k db :
  Queue.deadQueue self = None →
  exceeds (Msg.tries msg) (Queue.maxRetries self) = true →
  ∀ calls db',
    check_tries (get fuel self None o) self msg o k db = Some (calls, db') →
    ∃ later, calls = Success (Some msg) :: later.
Proof.
  intros Hdq Hex calls db'. unfold check_tries. rewrite Hex, Hdq.
  destruct (ack self _ _ _) as [[err|v] db1]; simpl.
  - intros [= <- <-]. eauto.
  - destruct (get fuel self None o _ db1) as [[calls1 db2]|]; [|done].
    simpl. intros [= <- <-]. eauto.
Qed.

(** ** Errors *)



(** * Further properties *)

(** ** Plain inserts *)

Lemma plain_writes visible payloads : ∀ index r c,
  (write_from index (map (add_operation None visible) payloads) (r, c)).2
  = mkCollection (docs c ++ fresh_docs (nextId c) visible payloads)
                 (nextId c + N.of_nat (length payloads)).
Proof.
  unfold fresh_docs.
  induction payloads as [|p ps IH]; intros index r c.
  - simpl. rewrite app_nil_r, N.add_0_r. by destruct c.
  - rewrite map_cons, write_from_cons. simpl write_one. rewrite IH. simpl.
    rewrite <- app_assoc. simpl. rewrite N.add_0_r. f_equal; [|lia].
    do 2 f_equal. apply imap_ext. intros j x _. simpl. f_equal. lia.
Qed.

(** Without a debounce key, [add] of [n] payloads appends [n] documents,
    in the order given, under consecutive ids: never claimed, not deleted,
    visible at [now] plus the delay in force.  The documents already there
    and the other collections are left as they were, and [total] grows by
    [n]. *)
Theorem add_appends self payload opts now db :
  let opts' := default AddOptions.empty opts in
  let delay := or_else (AddOptions.delay opts') (Queue.delay self) in
  let payloads := if isArray payload then elements payload else [payload] in
  let c := col_of db (Queue.col self) in
  debounce_key opts' = None → payloads ≠ [] →
  (add self payload opts now db).2
  = <[Queue.col self :=
        mkCollection
          (docs c ++ fresh_docs (nextId c) (now + delay * 1000) payloads)
          (nextId c + N.of_nat (length payloads))]> db
  ∧ total self (add self payload opts now db).2
    = Success (length (docs c) + length payloads)%nat.
Proof.
  intros opts' delay payloads c Hkey Hne.
  pose proof (add_writes self payload opts now db Hne) as Hw.
  cbv zeta in Hw. fold opts' delay payloads c in Hw.
  rewrite Hkey in Hw. unfold bulkWrite in Hw. rewrite plain_writes in Hw.
  split; [exact Hw|].
  unfold total. rewrite Hw, col_of_insert_eq. simpl.
  unfold fresh_docs. by rewrite length_app, length_imap.
Qed.

Lemma add_appends_witness :
  docs (col_of (two_messages strict_queue) (Queue.col strict_queue))
  = [Doc.mk 0 (VStr "a") (Some (Date 0)) None None None None;
     Doc.mk 1 (VStr "b") (Some (Date 0)) None None None None].
Proof.
  unfold two_messages.
  rewrite (proj1 (add_appends strict_queue (VArr [VStr "a"; VStr "b"]) None 0
                    ∅ eq_refl ltac:(discriminate))).
  reflexivity.
Defined.

(** ** From [add] to [get] *)

(** A message added alone, with no debounce key, to a queue with nothing
    else to claim, and claimed once it is visible: [get] hands out the
    payload as it was given, under the id [add] returned, with the token
    of the call and [tries] 1, and leases the document for the visibility
    in force. *)
Theorem add_then_get fuel self payload aopts now db gopts o k :
  let aopts' := default AddOptions.empty aopts in
  let delay := or_else (AddOptions.delay aopts') (Queue.delay self) in
  let visibility :=
    or_else (GetOptions.visibility (default GetOptions.empty gopts))
            (Queue.visibility self) in
  let c := col_of db (Queue.col self) in
  let id := show_id (nextId c) in
  isArray payload = false → debounce_key aopts' = None →
  now + delay * 1000 ≤ clock o k →
  (∀ j d, docs c !! j = Some d → ¬ Claimable (clock o k) d) →
  exceeds 1 (Queue.maxRetries self) = false →
  (add self payload aopts now db).1 = Success (VStr id)
  ∧ get (S fuel) self gopts o k (add self payload aopts now db).2
    = Some ([Success (Some (Msg.mk id (rand o k) payload 1))],
            <[Queue.col self :=
                mkCollection
                  (docs c ++ [Doc.mk (nextId c) payload
                                (Some (Date (clock o k + visibility * 1000)))
                                (Some (rand o k)) (Some 1) None None])
                  (N.succ (nextId c))]> db).
Proof.
  intros aopts' delay visibility c id Harr Hkey Hvisible Hnone Hwithin.
  pose proof (add_single self payload aopts now db Harr) as Hadd.
  cbv zeta in Hadd. fold aopts' delay c in Hadd. rewrite Hkey in Hadd.
  rewrite Hadd. split; [reflexivity|]. cbn [snd].
  set (d0 := Doc.mk (nextId c) payload (Some (Date (now + delay * 1000)))
                    None None None None).
  assert (written (add_operation None (now + delay * 1000) payload) c
          = mkCollection (docs c ++ [d0]) (N.succ (nextId c))) as ->
    by reflexivity.
  rewrite (get_claim fuel self gopts o k _ (length (docs c)) d0).
  - rewrite col_of_insert_eq. cbn [docs nextId].
    unfold check_tries.
    change (exceeds _ _) with (exceeds 1 (Queue.maxRetries self)).
    rewrite Hwithin.
    rewrite insert_insert_eq.
    rewrite insert_app_r_alt by lia. rewrite Nat.sub_diag. reflexivity.
  - rewrite col_of_insert_eq. simpl.
    rewrite lookup_app_r by lia. by rewrite Nat.sub_diag.
  - split; [done|]. by exists (now + delay * 1000).
  - rewrite col_of_insert_eq. simpl. intros j d' Hne Hj Hclaimable.
    apply lookup_app_Some in Hj as [Hj|[Hge Hj]].
    + by destruct (Hnone j d' Hj).
    + apply list_lookup_singleton_Some in Hj as [Hj _]. lia.
Qed.

Lemma add_then_get_witness :
  fst <$> get 1 delayed_queue None (oracle_at 5300) O
              (add delayed_queue (VStr "x") None 1000 ∅).2
  = Some [Success (Some (Msg.mk "0" "100" (VStr "x") 1))].
Proof.
  rewrite (proj2 (add_then_get O delayed_queue (VStr "x") None 1000 ∅ None
                    (oracle_at 5300) O eq_refl eq_refl
                    ltac:(vm_compute; discriminate)
                    ltac:(intros [|j] d; discriminate) eq_refl)).
  reflexivity.
Defined.

(** ** Cleaning *)







(** ** Migration *)

Lemma migrate_unfold parse self db :
  migrate parse self db
  = let c := col_of db (Queue.col self) in
    let operations :=
      map (migrate_operation parse) (List.filter legacy (docs c)) in
    if (length operations <=? 0)%nat then (Success None, db)
    else (Success (Some (modifiedCount (bulkWrite operations c).1)),
          <[Queue.col self := (bulkWrite operations c).2]> db).
Proof.
  unfold migrate, find. cbv zeta.
  change (map _ (List.filter _ (docs (col_of db (Queue.col self)))))
    with (map (migrate_operation parse)
              (List.filter legacy (docs (col_of db (Queue.col self))))).
  destruct (_ <=? _)%nat; [done|]. by destruct (bulkWrite _ _).
Qed.

Lemma migrate_operation_update parse d :
  apply_update
    (mkUpdate None
       (match Doc.deleted d with
        | Some (DateString s) => [SetDeleted (Date (parse s))]
        | _ => []
        end ++
        match Doc.visible d with
        | Some (DateString s) => [SetVisible (Date (parse s))]
        | _ => []
        end)) d
  = migrated parse d.
Proof.
  destruct d as [i p v a t del deb].
  destruct del as [[ms|s]|], v as [[ms'|s']|]; reflexivity.
Qed.

Lemma migrated_modern parse d : legacy d = false → migrated parse d = d.
Proof.
  destruct d as [i p v a t del deb]. unfold legacy. simpl.
  destruct del as [[ms|s]|], v as [[ms'|s']|]; simpl; done.
Qed.

Lemma migrated_is_modern parse d : legacy (migrated parse d) = false.
Proof.
  destruct d as [i p v a t del deb]. unfold legacy. simpl.
  destruct del as [[ms|s]|], v as [[ms'|s']|]; reflexivity.
Qed.

Lemma migrate_write_one parse index d r c k :
  first_match (Fields [(F_id, Equals (BObjectId (Doc._id d)))]) (docs c)
  = Some (k, d) →
  write_one index (migrate_operation parse d) (r, c)
  = (mkBulkWriteResult (insertedIds r) (upsertedIds r) (S (modifiedCount r)),
     mkCollection (<[k := migrated parse d]> (docs c)) (nextId c)).
Proof.
  intros H. unfold migrate_operation. cbn [write_one]. rewrite H.
  by rewrite migrate_operation_update.
Qed.

Lemma migrate_writes parse l : ∀ pre index r n,
  NoDup (map Doc._id (pre ++ l)) →
  write_from index (map (migrate_operation parse) (List.filter legacy l))
             (r, mkCollection (pre ++ l) n)
  = (mkBulkWriteResult (insertedIds r) (upsertedIds r)
       (modifiedCount r + length (List.filter legacy l)),
     mkCollection (pre ++ map (migrated parse) l) n).
Proof.
  induction l as [|d l IH]; intros pre index r n Hids.
  - simpl. rewrite Nat.add_0_r. by destruct r.
  - simpl List.filter. destruct (legacy d) eqn:Hd.
    + rewrite map_cons, write_from_cons.
      assert (first_match (Fields [(F_id, Equals (BObjectId (Doc._id d)))])
                          (pre ++ d :: l) = Some (length pre, d)) as Hfirst.
      { apply first_match_intro.
        - by rewrite lookup_app_r, Nat.sub_diag by lia.
        - simpl. by rewrite N.eqb_refl.
        - intros j d' Hlt Hj. rewrite lookup_app_l in Hj by done.
          simpl. rewrite andb_true_r. apply N.eqb_neq. intros Heq.
          rewrite map_app in Hids. apply NoDup_app in Hids as (_ & Hsep & _).
          apply (Hsep (Doc._id d)).
          + rewrite <- Heq. apply list_elem_of_fmap_2.
            by eapply list_elem_of_lookup_2.
          + simpl. left. }
      rewrite (migrate_write_one parse index d r
                 (mkCollection (pre ++ d :: l) n) (length pre) Hfirst).
      cbn [docs nextId].
      rewrite insert_app_r_alt, Nat.sub_diag by lia. simpl insert.
      rewrite (cons_middle (migrated parse d)), app_assoc.
      rewrite IH.
      * cbn [insertedIds upsertedIds modifiedCount length].
        rewrite <- app_assoc. do 2 f_equal. lia.
      * rewrite <- app_assoc. simpl. rewrite !map_app in *. exact Hids.
    + rewrite (cons_middle d), app_assoc. rewrite IH.
      * rewrite <- app_assoc. simpl. by rewrite (migrated_modern parse d Hd).
      * by rewrite <- app_assoc.
Qed.

Lemma migrated_all_modern parse l :
  List.filter legacy (map (migrated parse) l) = [].
Proof.
  induction l as [|d l IH]; [done|]. simpl.
  by rewrite migrated_is_modern.
Qed.

Lemma migrated_nothing parse l :
  List.filter legacy l = [] → map (migrated parse) l = l.
Proof.
  induction l as [|d l IH]; [done|]. simpl.
  destruct (legacy d) eqn:Hd; [done|]. intros Hl.
  by rewrite (migrated_modern parse d Hd), IH.
Qed.

Lemma migrate_result parse self db :
  let c := col_of db (Queue.col self) in
  let n := length (List.filter legacy (docs c)) in
  NoDup (map Doc._id (docs c)) →
  migrate parse self db
  = match n with
    | O => (Success None, db)
    | S _ => (Success (Some n),
              <[Queue.col self :=
                  mkCollection (map (migrated parse) (docs c)) (nextId c)]> db)
    end.
Proof.
  intros c n Hids. rewrite migrate_unfold. cbv zeta. fold c.
  rewrite length_map. fold n. unfold bulkWrite.
  pose proof (migrate_writes parse (docs c) [] O (mkBulkWriteResult ∅ ∅ O)
                (nextId c) Hids) as Hw.
  simpl app in Hw. destruct c as [l next]. cbn [docs nextId] in *.
  rewrite Hw. cbn [fst snd modifiedCount Nat.add]. fold n. clearbody n.
  by destruct n.
Qed.

(** When the ids of the collection are distinct, [migrate] turns every
    string timestamp into the date it parses to and changes nothing else:
    each document keeps its place and its other fields, no document is
    legacy afterwards, and the callback receives the number of legacy
    documents, or nothing, with no write, when there is none. *)
Theorem migrate_converts parse self db :
  let c := col_of db (Queue.col self) in
  let n := length (List.filter legacy (docs c)) in
  NoDup (map Doc._id (docs c)) →
  (migrate parse self db).1 = (if n is O then Success None
                               else Success (Some n))
  ∧ (n = O → (migrate parse self db).2 = db)
  ∧ docs (col_of (migrate parse self db).2 (Queue.col self))
    = map (migrated parse) (docs c)
  ∧ nextId (col_of (migrate parse self db).2 (Queue.col self)) = nextId c
  ∧ List.filter legacy
      (docs (col_of (migrate parse self db).2 (Queue.col self))) = [].
Proof.
  intros c n Hids. rewrite (migrate_result parse self db Hids).
  fold c n. destruct n as [|n'] eqn:Hn; simpl.
  - assert (map (migrated parse) (docs c) = docs c) as Hsame.
    { apply migrated_nothing. by apply length_zero_iff_nil. }
    fold c. split_and!; try done.
    rewrite <- Hsame. apply migrated_all_modern.
  - rewrite col_of_insert_eq. simpl. split_and!; try done.
    apply migrated_all_modern.
Qed.

Lemma migrate_converts_witness :
  docs (col_of (migrate (fun _ => 5) strict_queue legacy_db).2
               (Queue.col strict_queue))
  = [Doc.mk 0 (VStr "old") (Some (Date 5)) None None (Some (Date 5)) None;
     Doc.mk 1 (VStr "new") (Some (Date 0)) None None None None].
Proof.
  destruct (migrate_converts (fun _ => 5) strict_queue legacy_db)
    as (_ & _ & -> & _).
  - compute_done.
  - reflexivity.
Defined.

(** Migrating a second time finds nothing to do: it calls back with no
    count and writes nothing. *)
Theorem migrate_twice parse parse' self db :
  NoDup (map Doc._id (docs (col_of db (Queue.col self)))) →
  migrate parse' self (migrate parse self db).2
  = (Success None, (migrate parse self db).2).
Proof.
  intros Hids. rewrite (migrate_result parse self db Hids).
  destruct (length _) as [|n] eqn:Hn.
  - simpl. rewrite (migrate_result parse' self db Hids). by rewrite Hn.
  - cbn [snd]. rewrite migrate_result.
    + rewrite col_of_insert_eq. cbn [docs].
      by rewrite migrated_all_modern.
    + rewrite col_of_insert_eq. cbn [docs].
      rewrite <- list_fmap_compose.
      by rewrite (list_fmap_ext _ Doc._id (docs (col_of db (Queue.col self)))).
Qed.

Lemma migrate_twice_witness :
  migrate (fun _ => 7) strict_queue
          (migrate (fun _ => 5) strict_queue legacy_db).2
  = (Success None, (migrate (fun _ => 5) strict_queue legacy_db).2).
Proof. apply migrate_twice. compute_done. Defined.

(** ** Invariants of the database *)

(** A property of the database that [add], [ack], [ping] and the claim of
    [get] keep is kept by [get] as a whole and by every sequence of calls
    without [migrate]; if [migrate] keeps it too, by every sequence. *)
Section Invariant.
Variable P : Db → Prop.
Hypothesis P_add : ∀ self payload opts now db,
  P db → P (add self payload opts now db).2.
Hypothesis P_ack : ∀ self t now db, P db → P (ack self t now db).2.
Hypothesis P_claim : ∀ self visibility now t db,
  P db → P (claimed_by self visibility now t db).

Lemma get_preserves fuel self o : ∀ opts k db calls db',
  P db → get fuel self opts o k db = Some (calls, db') → P db'.
Proof.
  induction fuel as [|fuel IH]; intros opts k db calls db' HP; [done|].
  simpl.
  pose proof (P_claim self
    (or_else (GetOptions.visibility (default GetOptions.empty opts))
             (Queue.visibility self))
    (clock o k) (rand o k) db HP) as Hclaim.
  unfold claimed_by in Hclaim.
  destruct (findOneAndUpdate _ _ _ _) as [[m|] c]; [|by intros [= <- <-]].
  unfold check_tries. destruct (exceeds _ _); [|by intros [= <- <-]].
  destruct (Queue.deadQueue self) as [dq|].
  - pose proof (P_add dq (value_of_msg (external m)) None (clock o (k + 1))
                  _ Hclaim) as Hadd.
    destruct (add dq _ _ _ _) as [[err|v] db1]; simpl in Hadd;
      [by intros [= <- <-]|].
    pose proof (P_ack self (Msg.ack (external m)) (clock o (k + 2)) _ Hadd)
      as Hack.
    destruct (ack self _ _ db1) as [[err|v'] db2]; simpl in Hack;
      [by intros [= <- <-]|].
    by apply IH.
  - pose proof (P_ack self (Msg.ack (external m)) (clock o (k + 1)) _ Hclaim)
      as Hack.
    destruct (ack self _ _ _) as [[err|v'] db1]; simpl in Hack; simpl;
      [by intros [= <- <-]|].
    destruct (get fuel self None o _ db1) as [[calls1 db2]|] eqn:Eget;
      [|done].
    simpl. intros [= <- <-]. by eapply IH.
Qed.

Hypothesis P_ping : ∀ self t opts now db,
  P db → P (ping self t opts now db).2.

Lemma run_preserves_but_migrate calls : ∀ db db',
  Forall (fun c => is_migrate c = false) calls →
  P db → run calls db = Some db' → P db'.
Proof.
  induction calls as [|c calls IH]; intros db db' Hcalls HP; simpl.
  - by intros [= <-].
  - apply Forall_cons in Hcalls as [Hc Hcalls].
    destruct (commit c db) as [db1|] eqn:E; [|done].
    apply IH; [done|].
    destruct c as [self payload opts now|fuel self opts o k|self t opts now
                  |self t now|parse self]; simpl in E.
    + injection E as <-. by apply P_add.
    + destruct (get fuel self opts o k db) as [[cs db2]|] eqn:Eget; [|done].
      injection E as <-. by eapply get_preserves.
    + injection E as <-. by apply P_ping.
    + injection E as <-. by apply P_ack.
    + done.
Qed.

Hypothesis P_migrate : ∀ parse self db,
  P db → P (migrate parse self db).2.

Lemma run_preserves calls : ∀ db db',
  P db → run calls db = Some db' → P db'.
Proof.
  induction calls as [|c calls IH]; intros db db' HP; simpl.
  - by intros [= <-].
  - destruct (commit c db) as [db1|] eqn:E; [|done].
    apply IH.
    destruct c as [self payload opts now|fuel self opts o k|self t opts now
                  |self t now|parse self]; simpl in E.
    + injection E as <-. by apply P_add.
    + destruct (get fuel self opts o k db) as [[cs db2]|] eqn:Eget; [|done].
      injection E as <-. by eapply get_preserves.
    + injection E as <-. by apply P_ping.
    + injection E as <-. by apply P_ack.
    + injection E as <-. by apply P_migrate.
Qed.
End Invariant.

(** ** Done is final *)

Lemma update_spares q u sort c j d :
  (∀ x, matches q x = true → Doc.deleted x = None) →
  docs c !! j = Some d → Doc.deleted d ≠ None →
  docs (findOneAndUpdate q u sort c).2 !! j = Some d.
Proof.
  intros Hq Hj Hd. unfold findOneAndUpdate.
  assert (∀ i x, docs c !! i = Some x → matches q x = true →
                 <[i := apply_update u x]> (docs c) !! j = Some d) as Hone.
  { intros i x Hi Hx. destruct (decide (i = j)) as [->|Hne].
    - rewrite Hj in Hi. injection Hi as <-. by destruct (Hd (Hq d Hx)).
    - by rewrite list_lookup_insert_ne. }
  destruct sort as [[]|].
  - destruct (least_match q (docs c)) as [[i x]|] eqn:E; [|done].
    apply least_match_Some in E as (Hi & Hx & _). by apply (Hone i x).
  - destruct (first_match q (docs c)) as [[i x]|] eqn:E; [|done].
    apply first_match_Some in E as (Hi & Hx & _). by apply (Hone i x).
Qed.

Lemma live_not_deleted t now x :
  matches (Fields [(Fack, Equals (BString t)); (Fvisible, Gt now);
                   (Fdeleted, IsNull)]) x = true →
  Doc.deleted x = None.
Proof. intros H. by apply matches_live in H as (_ & H & _). Qed.

Lemma claimable_not_deleted now x :
  matches (Fields [(Fdeleted, IsNull); (Fvisible, Lte now)]) x = true →
  Doc.deleted x = None.
Proof. intros H. by apply matches_claimable in H as [H _]. Qed.

(** [add] leaves alone, in every collection, the documents that were
    claimed or deleted. *)
Lemma add_spares self payload opts now db ref j d :
  docs (col_of db ref) !! j = Some d →
  Doc.ack d ≠ None ∨ Doc.deleted d ≠ None →
  docs (col_of (add self payload opts now db).2 ref) !! j = Some d.
Proof.
  intros Hj Hd.
  destruct (decide (Queue.col self = ref)) as [<-|Hother];
    [|by rewrite add_elsewhere].
  destruct (decide ((if isArray payload then elements payload
                     else [payload]) = [])) as [Hnil|Hne].
  - destruct payload as [| | | | |items|]; try discriminate Hnil.
    simpl in Hnil. by subst items.
  - rewrite (add_writes self payload opts now db Hne), col_of_insert_eq.
    unfold bulkWrite.
    destruct (debounce_key (default AddOptions.empty opts)) as [k|].
    + apply debounce_writes_spare; [done|].
      intros (Ha & Hdel & _). destruct Hd; congruence.
    + rewrite plain_writes. simpl. by apply lookup_app_l_Some.
Qed.

Lemma ack_spares self t now db ref j d :
  docs (col_of db ref) !! j = Some d → Doc.deleted d ≠ None →
  docs (col_of (ack self t now db).2 ref) !! j = Some d.
Proof.
  intros Hj Hd. unfold ack.
  pose proof (update_spares
    (Fields [(Fack, Equals (BString t)); (Fvisible, Gt now); (Fdeleted, IsNull)])
    (mkUpdate None [SetDeleted (Date now)]) None (col_of db (Queue.col self))
    j d (live_not_deleted t now)) as H.
  destruct (findOneAndUpdate _ _ _ _) as [[m|] c]; [|done]. simpl in *.
  destruct (decide (Queue.col self = ref)) as [<-|Hother].
  - rewrite col_of_insert_eq. by apply H.
  - by rewrite col_of_insert_ne.
Qed.

Lemma ping_spares self t opts now db ref j d :
  docs (col_of db ref) !! j = Some d → Doc.deleted d ≠ None →
  docs (col_of (ping self t opts now db).2 ref) !! j = Some d.
Proof.
  intros Hj Hd. unfold ping.
  pose proof (update_spares
    (Fields [(Fack, Equals (BString t)); (Fvisible, Gt now); (Fdeleted, IsNull)])
    (mkUpdate None
       [SetVisible (Date (nowPlusSecs now
          (or_else (PingOptions.visibility (default PingOptions.empty opts))
                   (Queue.visibility self))))])
    None (col_of db (Queue.col self)) j d (live_not_deleted t now)) as H.
  destruct (findOneAndUpdate _ _ _ _) as [[m|] c]; [|done]. simpl in *.
  destruct (decide (Queue.col self = ref)) as [<-|Hother].
  - rewrite col_of_insert_eq. by apply H.
  - by rewrite col_of_insert_ne.
Qed.

Lemma claim_spares self visibility now t db ref j d :
  docs (col_of db ref) !! j = Some d → Doc.deleted d ≠ None →
  docs (col_of (claimed_by self visibility now t db) ref) !! j = Some d.
Proof.
  intros Hj Hd. unfold claimed_by.
  pose proof (update_spares
    (Fields [(Fdeleted, IsNull); (Fvisible, Lte now)])
    (mkUpdate (Some 1)
       [SetAck t; SetVisible (Date (nowPlusSecs now visibility))])
    (Some By_id) (col_of db (Queue.col self)) j d
    (claimable_not_deleted now)) as H.
  destruct (findOneAndUpdate _ _ _ _) as [[m|] c]; [|done]. simpl in *.
  destruct (decide (Queue.col self = ref)) as [<-|Hother].
  - rewrite col_of_insert_eq. by apply H.
  - by rewrite col_of_insert_ne.
Qed.

(** A deleted document is final: through any sequence of completed calls
    of [add], [get], [ping] and [ack], on whatever queues, it stays in its
    place with every field as it was.  It is never claimed again, and its
    [tries], [ack], [visible] and [payload] never change. *)
Theorem done_is_final calls db db' ref i d :
  Forall (fun c => is_migrate c = false) calls →
  run calls db = Some db' →
  docs (col_of db ref) !! i = Some d → Doc.deleted d ≠ None →
  docs (col_of db' ref) !! i = Some d.
Proof.
  intros Hcalls Hrun Hi Hd.
  apply (run_preserves_but_migrate
           (fun db => docs (col_of db ref) !! i = Some d)) with calls db;
    try done.
  - intros. apply add_spares; auto.
  - intros. by apply ack_spares.
  - intros. by apply claim_spares.
  - intros. by apply ping_spares.
Qed.

Lemma done_is_final_witness :
  ∃ db', run (take 5 later_calls) acked = Some db'
         ∧ docs (col_of db' (Queue.col strict_queue)) !! O
           = Some (Doc.mk 0 (VStr "a") (Some (Date 31000))
                          (Some "100"%string) (Some 1) (Some (Date 2000))
                          None).
Proof.
  assert (∃ db', run (take 5 later_calls) acked = Some db') as [db' Hrun]
    by (vm_compute; eexists; reflexivity).
  exists db'. split; [done|].
  apply (done_is_final (take 5 later_calls) acked db'); try done.
  simpl. repeat constructor.
Defined.

(** ** One waiting document per debounce key *)

(** No update makes a document wait that did not. *)
Lemma waiting_before_update k u d :
  Waiting k (apply_update u d) → Waiting k d.
Proof.
  unfold apply_update.
  assert (∀ l d0, Waiting k (foldl assign d0 l) → Waiting k d0) as Hfold.
  { induction l as [|a l IH]; intros d0; [done|]. simpl. intros H.
    apply IH in H. destruct a; destruct H as (Ha & Hd & Hk); done. }
  destruct (inc_tries u) as [n|]; [|apply Hfold].
  intros H. apply Hfold in H. by destruct H as (Ha & Hd & Hk).
Qed.

Lemma once_insert k l i d d' :
  Once k l → l !! i = Some d → (Waiting k d' → Waiting k d) →
  Once k (<[i := d']> l).
Proof.
  intros Honce Hi Hback a b x y Ha Hb Hx Hy.
  assert (∀ j z, <[i := d']> l !! j = Some z → Waiting k z →
                 ∃ z', l !! j = Some z' ∧ Waiting k z') as Hold.
  { intros j z Hj Hz. apply list_lookup_insert_Some in Hj
      as [(-> & <- & _)|(_ & Hj)]; eauto. }
  destruct (Hold a x Ha Hx) as (x' & Ha' & Hx').
  destruct (Hold b y Hb Hy) as (y' & Hb' & Hy').
  by apply (Honce a b x' y').
Qed.

Lemma once_app_other k l x : Once k l → ¬ Waiting k x → Once k (l ++ [x]).
Proof.
  intros Honce Hx a b y z Ha Hb Hy Hz.
  apply lookup_app_Some in Ha as [Ha|[_ Ha]];
    [|apply list_lookup_singleton_Some in Ha as [_ <-]; done].
  apply lookup_app_Some in Hb as [Hb|[_ Hb]];
    [|apply list_lookup_singleton_Some in Hb as [_ <-]; done].
  by apply (Honce a b y z).
Qed.

Lemma once_app_first k l x :
  (∀ j d, l !! j = Some d → ¬ Waiting k d) → Once k (l ++ [x]).
Proof.
  intros Hnone a b y z Ha Hb Hy Hz.
  apply lookup_app_Some in Ha as [Ha|[Hge Ha]]; [by destruct (Hnone a y Ha)|].
  apply lookup_app_Some in Hb as [Hb|[Hge' Hb]]; [by destruct (Hnone b z Hb)|].
  apply list_lookup_singleton_Some in Ha as [Ha _].
  apply list_lookup_singleton_Some in Hb as [Hb _]. lia.
Qed.

Lemma once_update k q u sort c :
  Once k (docs c) → Once k (docs (findOneAndUpdate q u sort c).2).
Proof.
  intros Honce. unfold findOneAndUpdate. destruct sort as [[]|].
  - destruct (least_match q (docs c)) as [[i d]|] eqn:E; [|done].
    apply least_match_Some in E as (Hi & _).
    apply (once_insert k _ i d); [done..|apply waiting_before_update].
  - destruct (first_match q (docs c)) as [[i d]|] eqn:E; [|done].
    apply first_match_Some in E as (Hi & _).
    apply (once_insert k _ i d); [done..|apply waiting_before_update].
Qed.

Lemma once_add_write k index key visible payload r c :
  Once k (docs c) →
  Once k (docs (write_one index (add_operation key visible payload) (r, c)).2).
Proof.
  intros Honce. destruct key as [k'|].
  - destruct (first_match (Fields [(Fack, IsNull); (Fdeleted, IsNull);
                                   (Fdebounce, Equals (BString k'))]) (docs c))
      as [[i d]|] eqn:E.
    + rewrite (debounce_write_matched _ _ _ _ _ _ _ _ E). simpl.
      apply first_match_Some in E as (Hi & _).
      apply (once_insert k _ i d); [done..|].
      by intros (Ha & Hd & Hk).
    + rewrite (debounce_write_unmatched _ _ _ _ _ _ E). simpl.
      destruct (decide (k = k')) as [->|Hne].
      * apply once_app_first. intros j d Hj Hd.
        rewrite first_match_None in E. specialize (E j d Hj).
        apply matches_waiting in Hd. congruence.
      * apply once_app_other; [done|]. intros (_ & _ & Hk). simpl in Hk.
        congruence.
  - simpl. apply once_app_other; [done|]. by intros (_ & _ & Hk).
Qed.

Lemma once_add_writes k key visible payloads : ∀ index r c,
  Once k (docs c) →
  Once k (docs (write_from index (map (add_operation key visible) payloads)
                           (r, c)).2).
Proof.
  induction payloads as [|p ps IH]; intros index r c Honce; [done|].
  rewrite map_cons, write_from_cons.
  pose proof (once_add_write k index key visible p r c Honce) as H.
  destruct (write_one index (add_operation key visible p) (r, c)) as [r' c'].
  by apply IH.
Qed.

Lemma once_updates k ops : ∀ index r c,
  Forall (fun op => ∃ filter update, op = UpdateOne filter update false) ops →
  Once k (docs c) → Once k (docs (write_from index ops (r, c)).2).
Proof.
  induction ops as [|op ops IH]; intros index r c Hops Honce; [done|].
  apply Forall_cons in Hops as [(filter & update & ->) Hops].
  rewrite write_from_cons. simpl write_one.
  destruct (first_match filter (docs c)) as [[i d]|] eqn:E.
  - apply IH; [done|]. simpl.
    apply first_match_Some in E as (Hi & _).
    apply (once_insert k _ i d); [done..|apply waiting_before_update].
  - by apply IH.
Qed.

Lemma once_insert_db (db : Db) ref c :
  OncePerKey db → (∀ k, Once k (docs c)) → OncePerKey (<[ref := c]> db).
Proof.
  intros Hdb Hc ref' k. destruct (decide (ref = ref')) as [<-|Hne].
  - by rewrite col_of_insert_eq.
  - rewrite col_of_insert_ne by done. apply Hdb.
Qed.

Lemma once_add self payload opts now db :
  OncePerKey db → OncePerKey (add self payload opts now db).2.
Proof.
  intros Hdb.
  destruct (decide ((if isArray payload then elements payload
                     else [payload]) = [])) as [Hnil|Hne].
  - destruct payload as [| | | | |items|]; try discriminate Hnil.
    simpl in Hnil. by subst items.
  - rewrite (add_writes self payload opts now db Hne).
    apply once_insert_db; [done|]. intros k. apply once_add_writes, Hdb.
Qed.

Lemma once_ack self t now db : OncePerKey db → OncePerKey (ack self t now db).2.
Proof.
  intros Hdb. unfold ack.
  pose proof (fun k => once_update k
    (Fields [(Fack, Equals (BString t)); (Fvisible, Gt now); (Fdeleted, IsNull)])
    (mkUpdate None [SetDeleted (Date now)]) None (col_of db (Queue.col self))
    (Hdb _ k)) as H.
  destruct (findOneAndUpdate _ _ _ _) as [[m|] c]; [|done].
  by apply once_insert_db.
Qed.

Lemma once_ping self t opts now db :
  OncePerKey db → OncePerKey (ping self t opts now db).2.
Proof.
  intros Hdb. unfold ping.
  pose proof (fun k => once_update k
    (Fields [(Fack, Equals (BString t)); (Fvisible, Gt now); (Fdeleted, IsNull)])
    (mkUpdate None
       [SetVisible (Date (nowPlusSecs now
          (or_else (PingOptions.visibility (default PingOptions.empty opts))
                   (Queue.visibility self))))])
    None (col_of db (Queue.col self)) (Hdb _ k)) as H.
  destruct (findOneAndUpdate _ _ _ _) as [[m|] c]; [|done].
  by apply once_insert_db.
Qed.

Lemma once_claim self visibility now t db :
  OncePerKey db → OncePerKey (claimed_by self visibility now t db).
Proof.
  intros Hdb. unfold claimed_by.
  pose proof (fun k => once_update k
    (Fields [(Fdeleted, IsNull); (Fvisible, Lte now)])
    (mkUpdate (Some 1)
       [SetAck t; SetVisible (Date (nowPlusSecs now visibility))])
    (Some By_id) (col_of db (Queue.col self)) (Hdb _ k)) as H.
  destruct (findOneAndUpdate _ _ _ _) as [[m|] c]; [|done].
  by apply once_insert_db.
Qed.

Lemma once_migrate parse self db :
  OncePerKey db → OncePerKey (migrate parse self db).2.
Proof.
  intros Hdb. rewrite migrate_unfold. cbv zeta.
  destruct (_ <=? _)%nat; [done|]. cbn [snd].
  apply once_insert_db; [done|]. intros k. unfold bulkWrite.
  apply once_updates; [|apply Hdb].
  apply Forall_forall. intros op Hop.
  apply list_elem_of_In, in_map_iff in Hop as (d & <- & _).
  by eexists _, _.
Qed.

(** The debounce invariant.  If every collection has at most one document
    waiting (neither claimed nor deleted) under each debounce key, it is
    still so after any sequence of completed calls of [add], [get],
    [ping], [ack] and [migrate]; it is so in every database built from
    the empty one. *)
Theorem one_waiting_per_key calls db db' :
  OncePerKey db → run calls db = Some db' → OncePerKey db'.
Proof.
  intros Hdb Hrun.
  apply (run_preserves OncePerKey) with calls db; try done.
  - apply once_add.
  - apply once_ack.
  - apply once_claim.
  - apply once_ping.
  - apply once_migrate.
Qed.

Lemma one_waiting_per_key_witness :
  ∃ db', run greeting_calls ∅ = Some db' ∧ OncePerKey db'.
Proof.
  assert (∃ db', run greeting_calls ∅ = Some db') as [db' Hrun]
    by (vm_compute; eexists; reflexivity).
  exists db'. split; [done|].
  apply (one_waiting_per_key greeting_calls ∅ db'); [|done].
  intros ref k i j d d' Hi. unfold col_of in Hi.
  rewrite lookup_empty in Hi. done.
Defined.

(** ** How documents age *)

Lemma ages_refl d : Ages d d.
Proof. unfold Ages. split_and!; auto. lia. Qed.

Lemma ages_trans d1 d2 d3 : Ages d1 d2 → Ages d2 d3 → Ages d1 d3.
Proof.
  intros (Hi & Hk & Ht & Ha & Hd & Hp) (Hi' & Hk' & Ht' & Ha' & Hd' & Hp').
  unfold Ages. split_and!; try congruence; auto; [lia|].
  intros H. rewrite Hp', Hp; [done|done|]. destruct H; auto.
Qed.

(** An update that does not decrement [tries] and sets no payload. *)
Lemma ages_update u d :
  (∀ n, inc_tries u = Some n → 0 ≤ n) →
  Forall (fun a => ∀ v, a ≠ SetPayload v) (set u) →
  Ages d (apply_update u d).
Proof.
  intros Hinc Hset. unfold apply_update.
  assert (∀ l d0, Forall (fun a => ∀ v, a ≠ SetPayload v) l →
                  Ages d0 (foldl assign d0 l)) as Hfold.
  { induction l as [|a l IH]; intros d0 Hl; [apply ages_refl|].
    apply Forall_cons in Hl as [Ha Hl]. simpl.
    apply (ages_trans _ (assign d0 a)); [|by apply IH].
    destruct a; try (by destruct (Ha v));
      unfold Ages; simpl; split_and!; auto; lia. }
  destruct (inc_tries u) as [n|] eqn:E; [|by apply Hfold].
  apply (ages_trans _ (Doc.inc_tries n d)); [|by apply Hfold].
  specialize (Hinc n eq_refl).
  unfold Ages. simpl. split_and!; auto. lia.
Qed.

Lemma aged_refl db : Aged db db.
Proof. intros ref i d Hi. exists d. split; [done|apply ages_refl]. Qed.

Lemma aged_trans db1 db2 db3 : Aged db1 db2 → Aged db2 db3 → Aged db1 db3.
Proof.
  intros H12 H23 ref i d Hi.
  destruct (H12 ref i d Hi) as (d2 & Hi2 & Ha2).
  destruct (H23 ref i d2 Hi2) as (d3 & Hi3 & Ha3).
  exists d3. split; [done|]. by eapply ages_trans.
Qed.

Lemma aged_insert (db : Db) ref c :
  (∀ i d, docs (col_of db ref) !! i = Some d →
          ∃ d', docs c !! i = Some d' ∧ Ages d d') →
  Aged db (<[ref := c]> db).
Proof.
  intros H ref' i d Hi. destruct (decide (ref = ref')) as [<-|Hne].
  - rewrite col_of_insert_eq. by apply H.
  - rewrite col_of_insert_ne by done. exists d. split; [done|apply ages_refl].
Qed.

Lemma ages_insert (l : list Doc.t) (i : nat) d d' (j : nat) x :
  l !! i = Some d → Ages d d' → l !! j = Some x →
  ∃ x', <[i := d']> l !! j = Some x' ∧ Ages x x'.
Proof.
  intros Hi Hd Hj. destruct (decide (i = j)) as [<-|Hne].
  - exists d'. rewrite Hi in Hj. injection Hj as <-. split; [|done].
    apply list_lookup_insert_eq. by apply lookup_lt_Some in Hi.
  - exists x. rewrite list_lookup_insert_ne by done.
    split; [done|apply ages_refl].
Qed.

Lemma aged_update q u sort c i d :
  (∀ n, inc_tries u = Some n → 0 ≤ n) →
  Forall (fun a => ∀ v, a ≠ SetPayload v) (set u) →
  docs c !! i = Some d →
  ∃ d', docs (findOneAndUpdate q u sort c).2 !! i = Some d' ∧ Ages d d'.
Proof.
  intros Hinc Hset Hi. unfold findOneAndUpdate. destruct sort as [[]|].
  - destruct (least_match q (docs c)) as [[j x]|] eqn:E;
      [|exists d; split; [done|apply ages_refl]].
    apply least_match_Some in E as (Hj & _). simpl.
    apply (ages_insert _ j x); [done| |done]. by apply ages_update.
  - destruct (first_match q (docs c)) as [[j x]|] eqn:E;
      [|exists d; split; [done|apply ages_refl]].
    apply first_match_Some in E as (Hj & _). simpl.
    apply (ages_insert _ j x); [done| |done]. by apply ages_update.
Qed.

Lemma aged_add_writes key visible payloads : ∀ index r c i d,
  docs c !! i = Some d →
  ∃ d', docs (write_from index (map (add_operation key visible) payloads)
                         (r, c)).2 !! i = Some d' ∧ Ages d d'.
Proof.
  induction payloads as [|p ps IH]; intros index r c i d Hi.
  - exists d. split; [done|apply ages_refl].
  - rewrite map_cons, write_from_cons.
    assert (∃ d1, docs (write_one index (add_operation key visible p)
                                  (r, c)).2 !! i = Some d1 ∧ Ages d d1)
      as (d1 & Hi1 & Ha1).
    { destruct key as [k|].
      - destruct (first_match (Fields [(Fack, IsNull); (Fdeleted, IsNull);
                                       (Fdebounce, Equals (BString k))])
                              (docs c)) as [[j x]|] eqn:E.
        + rewrite (debounce_write_matched _ _ _ _ _ _ _ _ E). simpl.
          apply first_match_Some in E as (Hj & Hx & _).
          apply matches_waiting in Hx as (Hack & Hdel & _).
          apply (ages_insert _ j x); [done| |done].
          unfold Ages. simpl. split_and!; auto; [lia|].
          intros [H|H]; congruence.
        + rewrite (debounce_write_unmatched _ _ _ _ _ _ E). simpl.
          exists d. split; [by apply lookup_app_l_Some|apply ages_refl].
      - simpl. exists d. split; [by apply lookup_app_l_Some|apply ages_refl]. }
    destruct (write_one index (add_operation key visible p) (r, c))
      as [r' c'].
    destruct (IH (S index) r' c' i d1 Hi1) as (d2 & Hi2 & Ha2).
    exists d2. split; [done|]. by eapply ages_trans.
Qed.

Lemma aged_updates ops : ∀ index r c i d,
  Forall (fun op => ∃ filter update,
            op = UpdateOne filter update false
            ∧ inc_tries update = None
            ∧ Forall (fun a => ∀ v, a ≠ SetPayload v) (set update)) ops →
  docs c !! i = Some d →
  ∃ d', docs (write_from index ops (r, c)).2 !! i = Some d' ∧ Ages d d'.
Proof.
  induction ops as [|op ops IH]; intros index r c i d Hops Hi.
  - exists d. split; [done|apply ages_refl].
  - apply Forall_cons in Hops as [(filter & update & -> & Hinc & Hset) Hops].
    rewrite write_from_cons. simpl write_one.
    destruct (first_match filter (docs c)) as [[j x]|] eqn:E;
      [|by apply IH].
    apply first_match_Some in E as (Hj & _).
    destruct (ages_insert (docs c) j x (apply_update update x) i d)
      as (d1 & Hi1 & Ha1); [done| |done|].
    { apply ages_update; [|done]. intros n Hn. congruence. }
    destruct (IH (S index)
                 (mkBulkWriteResult (insertedIds r) (upsertedIds r)
                                    (S (modifiedCount r)))
                 (mkCollection (<[j := apply_update update x]> (docs c))
                               (nextId c)) i d1 Hops Hi1) as (d2 & Hi2 & Ha2).
    exists d2. split; [done|]. by eapply ages_trans.
Qed.

Lemma aged_add self payload opts now db :
  Aged db (add self payload opts now db).2.
Proof.
  destruct (decide ((if isArray payload then elements payload
                     else [payload]) = [])) as [Hnil|Hne].
  - destruct payload as [| | | | |items|]; try discriminate Hnil.
    simpl in Hnil. subst items. apply aged_refl.
  - rewrite (add_writes self payload opts now db Hne).
    apply aged_insert. intros i d Hi. by apply aged_add_writes.
Qed.

Lemma aged_ack self t now db : Aged db (ack self t now db).2.
Proof.
  unfold ack.
  pose proof (aged_update
    (Fields [(Fack, Equals (BString t)); (Fvisible, Gt now); (Fdeleted, IsNull)])
    (mkUpdate None [SetDeleted (Date now)]) None (col_of db (Queue.col self)))
    as H.
  destruct (findOneAndUpdate _ _ _ _) as [[m|] c]; [|apply aged_refl].
  apply aged_insert. intros i d Hi. apply H; [done| |done].
  by repeat constructor.
Qed.

Lemma aged_ping self t opts now db : Aged db (ping self t opts now db).2.
Proof.
  unfold ping.
  pose proof (aged_update
    (Fields [(Fack, Equals (BString t)); (Fvisible, Gt now); (Fdeleted, IsNull)])
    (mkUpdate None
       [SetVisible (Date (nowPlusSecs now
          (or_else (PingOptions.visibility (default PingOptions.empty opts))
                   (Queue.visibility self))))])
    None (col_of db (Queue.col self))) as H.
  destruct (findOneAndUpdate _ _ _ _) as [[m|] c]; [|apply aged_refl].
  apply aged_insert. intros i d Hi. apply H; [done| |done].
  by repeat constructor.
Qed.

Lemma aged_claim self visibility now t db :
  Aged db (claimed_by self visibility now t db).
Proof.
  unfold claimed_by.
  pose proof (aged_update
    (Fields [(Fdeleted, IsNull); (Fvisible, Lte now)])
    (mkUpdate (Some 1)
       [SetAck t; SetVisible (Date (nowPlusSecs now visibility))])
    (Some By_id) (col_of db (Queue.col self))) as H.
  destruct (findOneAndUpdate _ _ _ _) as [[m|] c]; [|apply aged_refl].
  apply aged_insert. intros i d Hi. apply H; [| |done].
  - intros n [= <-]. lia.
  - by repeat constructor.
Qed.

Lemma aged_migrate parse self db : Aged db (migrate parse self db).2.
Proof.
  rewrite migrate_unfold. cbv zeta.
  destruct (_ <=? _)%nat; [apply aged_refl|]. cbn [snd].
  apply aged_insert. intros i d Hi. unfold bulkWrite.
  apply aged_updates; [|done].
  apply Forall_forall. intros op Hop.
  apply list_elem_of_In, in_map_iff in Hop as (x & <- & _).
  eexists _, _. split; [reflexivity|]. split; [done|]. simpl.
  destruct (Doc.deleted x) as [[ms|s]|], (Doc.visible x) as [[ms'|s']|];
    by repeat constructor.
Qed.

(** Through any sequence of completed calls of [add], [get], [ping],
    [ack] and [migrate], every document keeps its place, its [_id] and its
    debounce key; its [tries] never goes down; once claimed it stays
    claimed, once deleted it stays deleted; and from the first claim on
    its payload never changes. *)
Theorem documents_age calls db db' ref i d :
  run calls db = Some db' →
  docs (col_of db ref) !! i = Some d →
  ∃ d', docs (col_of db' ref) !! i = Some d' ∧ Ages d d'.
Proof.
  intros Hrun Hi.
  apply (run_preserves (Aged db)) with (db' := db') (calls := calls)
                                       (db := db); try done.
  - intros. eapply aged_trans; [done|apply aged_add].
  - intros. eapply aged_trans; [done|apply aged_ack].
  - intros. eapply aged_trans; [done|apply aged_claim].
  - intros. eapply aged_trans; [done|apply aged_ping].
  - intros. eapply aged_trans; [done|apply aged_migrate].
  - apply aged_refl.
Qed.

Lemma documents_age_witness :
  ∃ db' d',
    run later_calls acked = Some db'
    ∧ docs (col_of db' (Queue.col strict_queue)) !! 1%nat = Some d'
    ∧ Ages (Doc.mk 1 (VStr "b") (Some (Date 0)) None None None None) d'.
Proof.
  assert (∃ db', run later_calls acked = Some db') as [db' Hrun]
    by (vm_compute; eexists; reflexivity).
  destruct (documents_age later_calls acked db' (Queue.col strict_queue) 1%nat
              (Doc.mk 1 (VStr "b") (Some (Date 0)) None None None None) Hrun)
    as (d' & Hd' & Hages); [reflexivity|].
  by exists db', d'.
Defined.

(** ** How the counters move *)

Lemma count_insert {A} (f : A → bool) (l : list A) (i : nat) (x x' : A) :
  l !! i = Some x →
  (length (List.filter f (<[i := x']> l)) + (if f x then 1 else 0)
   = length (List.filter f l) + (if f x' then 1 else 0))%nat.
Proof.
  revert i. induction l as [|y l IH]; intros i Hi; [done|].
  destruct i as [|i]; simpl in *.
  - injection Hi as ->. destruct (f x), (f x'); simpl; lia.
  - specialize (IH i Hi). destruct (f y); simpl; lia.
Qed.

(** A claim moves one document from [size] to [inFlight].  When [get]
    claims a document within its retry budget for a positive number of
    seconds, then at the instant of the claim [size] is one less than
    before and [inFlight] one more, while [done] and [total] are as
    before. *)
Theorem get_moves_counters fuel self opts o k db i d :
  let c := col_of db (Queue.col self) in
  let now := clock o k in
  let visibility :=
    or_else (GetOptions.visibility (default GetOptions.empty opts))
            (Queue.visibility self) in
  docs c !! i = Some d → Claimable now d →
  (∀ j d', j ≠ i → docs c !! j = Some d' → Claimable now d' →
           (Doc._id d < Doc._id d')%N) →
  exceeds (default 0 (Doc.tries d) + 1) (Queue.maxRetries self) = false →
  0 < visibility →
  ∃ calls db' s f,
    get (S fuel) self opts o k db = Some (calls, db')
    ∧ size self now db = Success (S s) ∧ size self now db' = Success s
    ∧ inFlight self now db = Success f ∧ inFlight self now db' = Success (S f)
    ∧ done self db' = done self db ∧ total self db' = total self db.
Proof.
  intros c now visibility Hi Hd Hothers Hwithin Hvis.
  pose proof (get_claim fuel self opts o k db i d Hi Hd Hothers) as Hget.
  cbv zeta in Hget. fold c now visibility in Hget.
  unfold check_tries in Hget. cbn [external Msg.tries Doc.tries] in Hget.
  change (default 0 (Some ?x)) with x in Hget. rewrite Hwithin in Hget.
  set (d' := Doc.mk (Doc._id d) (Doc.payload d)
                    (Some (Date (now + visibility * 1000))) (Some (rand o k))
                    (Some (default 0 (Doc.tries d) + 1)) (Doc.deleted d)
                    (Doc.debounce d)) in *.
  pose proof (matches_claimable now d) as [_ Hclaimable].
  specialize (Hclaimable Hd). destruct Hd as [Hdel (v & Hv & Hle)].
  pose proof (fun f => count_insert f (docs c) i d d' Hi) as Hcount.
  do 2 eexists.
  exists (length (List.filter
            (matches (Fields [(Fdeleted, IsNull); (Fvisible, Lte now)]))
            (<[i := d']> (docs c)))),
         (length (List.filter
            (matches (Fields [(Fack, Exists); (Fvisible, Gt now);
                              (Fdeleted, IsNull)])) (docs c))).
  split; [exact Hget|].
  unfold size, inFlight, done, total, count, find.
  rewrite !col_of_insert_eq. fold c. cbn [docs].
  split_and!; f_equal.
  - specialize (Hcount (matches (Fields [(Fdeleted, IsNull);
                                         (Fvisible, Lte now)]))).
    rewrite Hclaimable in Hcount.
    assert (matches (Fields [(Fdeleted, IsNull); (Fvisible, Lte now)]) d'
            = false) as Hd'.
    { simpl. rewrite Hdel. simpl. rewrite andb_true_r. apply Z.leb_gt. lia. }
    rewrite Hd' in Hcount. lia.
  - specialize (Hcount (matches (Fields [(Fack, Exists); (Fvisible, Gt now);
                                         (Fdeleted, IsNull)]))).
    assert (matches (Fields [(Fack, Exists); (Fvisible, Gt now);
                             (Fdeleted, IsNull)]) d = false) as Hbefore.
    { apply not_true_is_false. intros H.
      apply in_flight_not_claimable in H as [H _]. congruence. }
    assert (matches (Fields [(Fack, Exists); (Fvisible, Gt now);
                             (Fdeleted, IsNull)]) d' = true) as Hafter.
    { simpl. rewrite Hdel. simpl. rewrite andb_true_r. apply Z.ltb_lt. lia. }
    rewrite Hbefore, Hafter in Hcount. lia.
  - specialize (Hcount (matches (Fields [(Fdeleted, Exists)]))).
    assert (matches (Fields [(Fdeleted, Exists)]) d = false) as Hbefore
      by (simpl; by rewrite Hdel).
    assert (matches (Fields [(Fdeleted, Exists)]) d' = false) as Hafter
      by (simpl; by rewrite Hdel).
    rewrite Hbefore, Hafter in Hcount. lia.
  - apply length_insert.
Qed.


Lemma get_moves_counters_witness :
  ∃ calls db' s f,
    get 1 strict_queue None demo_oracle O (two_messages strict_queue)
    = Some (calls, db')
    ∧ size strict_queue 1000 (two_messages strict_queue) = Success (S s)
    ∧ size strict_queue 1000 db' = Success s
    ∧ inFlight strict_queue 1000 (two_messages strict_queue) = Success f
    ∧ inFlight strict_queue 1000 db' = Success (S f)
    ∧ done strict_queue db' = done strict_queue (two_messages strict_queue)
    ∧ total strict_queue db' = total strict_queue (two_messages strict_queue).
Proof.
  apply (get_moves_counters O strict_queue None demo_oracle O
           (two_messages strict_queue) O
           (Doc.mk 0 (VStr "a") (Some (Date 0)) None None None None)).
  - reflexivity.
  - split; [reflexivity|]. exists 0. split; [reflexivity|].
    vm_compute. discriminate.
  - intros [|[|j]] d'; [done| |done]. intros _ [= <-] _. reflexivity.
  - reflexivity.
  - reflexivity.
Defined.


(** ** Retiring a message *)

(** The dead-letter step.  The queue has a dead queue in another
    collection; [get] claims a document whose [tries] then exceeds
    [maxRetries], the token of the call being on no document, and the
    acknowledgement comes before the lease runs out.  Then the message,
    as claimed, is appended to the dead queue as the payload of a new
    document, visible after the delay of the dead queue; the claimed
    document is marked deleted; and the call goes on as a new [get]
    without options, three round trips later. *)
Theorem dead_letter_step fuel self dq opts o k db i d :
  let c := col_of db (Queue.col self) in
  let dc := col_of db (Queue.col dq) in
  let now := clock o k in
  let visibility :=
    or_else (GetOptions.visibility (default GetOptions.empty opts))
            (Queue.visibility self) in
  let tries := default 0 (Doc.tries d) + 1 in
  let msg := Msg.mk (show_id (Doc._id d)) (rand o k) (Doc.payload d) tries in
  Queue.deadQueue self = Some dq → Queue.col dq ≠ Queue.col self →
  docs c !! i = Some d → Claimable now d →
  (∀ j d', j ≠ i → docs c !! j = Some d' → Claimable now d' →
           (Doc._id d < Doc._id d')%N) →
  (∀ j d', docs c !! j = Some d' → Doc.ack d' ≠ Some (rand o k)) →
  exceeds tries (Queue.maxRetries self) = true →
  clock o (k + 2) < now + visibility * 1000 →
  get (S fuel) self opts o k db
  = get fuel self None o (k + 3)
      (<[Queue.col self :=
           mkCollection
             (<[i := Doc.mk (Doc._id d) (Doc.payload d)
                            (Some (Date (now + visibility * 1000)))
                            (Some (rand o k)) (Some tries)
                            (Some (Date (clock o (k + 2))))
                            (Doc.debounce d)]> (docs c))
             (nextId c)]>
         (<[Queue.col dq :=
              mkCollection
                (docs dc ++ [Doc.mk (nextId dc) (value_of_msg msg)
                               (Some (Date (clock o (k + 1)
                                            + Queue.delay dq * 1000)))
                               None None None None])
                (N.succ (nextId dc))]> db)).
Proof.
  intros c dc now visibility tries msg Hdq Hcol Hi Hd Hothers Hfresh Hex Hack.
  pose proof (get_claim fuel self opts o k db i d Hi Hd Hothers) as Hget.
  cbv zeta in Hget. destruct Hd as [Hdel Hvis]. rewrite Hdel in Hget.
  set (d1 := Doc.mk (Doc._id d) (Doc.payload d)
                    (Some (Date (now + visibility * 1000))) (Some (rand o k))
                    (Some tries) None (Doc.debounce d)).
  set (db1 := <[Queue.col self :=
                  mkCollection (<[i := d1]> (docs c)) (nextId c)]> db).
  assert (get (S fuel) self opts o k db
          = check_tries (get fuel self None o) self msg o k db1) as ->
    by exact Hget.
  clear Hget. unfold check_tries. change (Msg.tries msg) with tries.
  rewrite Hex, Hdq.
  rewrite (add_single dq (value_of_msg msg) None (clock o (k + 1)) db1 eq_refl).
  cbv zeta. change (debounce_key (default AddOptions.empty None)) with
    (@None string).
  change (or_else (AddOptions.delay (default AddOptions.empty None))
                  (Queue.delay dq)) with (Queue.delay dq).
  assert (col_of db1 (Queue.col dq) = dc) as ->
    by (unfold db1; by rewrite col_of_insert_ne).
  set (dc' := written (add_operation None _ _) dc).
  set (db2 := <[Queue.col dq := dc']> db1).
  assert (col_of db2 (Queue.col self)
          = mkCollection (<[i := d1]> (docs c)) (nextId c)) as Hc2.
  { unfold db2, db1. rewrite col_of_insert_ne by done.
    by rewrite col_of_insert_eq. }
  assert (first_match (Fields [(Fack, Equals (BString (rand o k)));
                               (Fvisible, Gt (clock o (k + 2)));
                               (Fdeleted, IsNull)])
                      (<[i := d1]> (docs c)) = Some (i, d1)) as Hfirst.
  { apply first_match_intro.
    - apply list_lookup_insert_eq. by apply lookup_lt_Some in Hi.
    - apply matches_live. split_and!; [done..|].
      exists (now + visibility * 1000). by split.
    - intros j d' Hlt. rewrite list_lookup_insert_ne by lia. intros Hj.
      apply (not_true_iff_false' _ _ (matches_live _ _ _)).
      intros (Ha & _). by destruct (Hfresh j d' Hj). }
  unfold ack at 1. change (Msg.ack msg) with (rand o k).
  unfold findOneAndUpdate. rewrite Hc2. cbn [docs nextId]. rewrite Hfirst.
  f_equal. unfold db2, db1.
  rewrite (insert_insert_ne db (Queue.col dq) (Queue.col self)) by done.
  rewrite insert_insert_eq. f_equal.
  by rewrite list_insert_insert_eq.
Qed.

Lemma dead_letter_step_witness :
  fst <$> get 2 retiring_queue None late_oracle O (once_tried retiring_queue)
  = Some [Success (Some (Msg.mk "1" "203" (VStr "b") 1))].
Proof.
  rewrite (dead_letter_step 1 retiring_queue dead_queue None late_oracle O
             (once_tried retiring_queue) O
             (Doc.mk 0 (VStr "a") (Some (Date 30010)) (Some "stale"%string)
                     (Some 1) None None)).
  - reflexivity.
  - reflexivity.
  - discriminate.
  - reflexivity.
  - split; [reflexivity|]. exists 30010. split; [reflexivity|].
    vm_compute. discriminate.
  - intros [|[|j]] d'; [done| |done]. intros _ [= <-] _. reflexivity.
  - intros [|[|j]] d'; [| |done]; intros [= <-]; discriminate.
  - reflexivity.
  - reflexivity.
Defined.

(** ** Hidden until visible *)

Lemma add_write_visible index key visible payload r c j d' :
  docs (write_one index (add_operation key visible payload) (r, c)).2 !! j
  = Some d' →
  Doc.visible d' = Some (Date visible) ∨ docs c !! j = Some d'.
Proof.
  destruct key as [k|]; simpl.
  - destruct (first_match _ (docs c)) as [[i d]|] eqn:E; simpl.
    + rewrite list_lookup_insert_Some.
      intros [(_ & <- & _)|(_ & Hj)]; [by left|by right].
    + rewrite lookup_app_Some.
      intros [Hj|(_ & Hj)]; [by right|left].
      apply list_lookup_singleton_Some in Hj as [_ <-]. done.
  - rewrite lookup_app_Some.
    intros [Hj|(_ & Hj)]; [by right|left].
    apply list_lookup_singleton_Some in Hj as [_ <-]. done.
Qed.

Lemma add_writes_visible key visible payloads : ∀ index r c j d',
  docs (write_from index (map (add_operation key visible) payloads)
                   (r, c)).2 !! j = Some d' →
  Doc.visible d' = Some (Date visible) ∨ docs c !! j = Some d'.
Proof.
  induction payloads as [|p ps IH]; intros index r c j d'; [by right|].
  rewrite map_cons, write_from_cons.
  destruct (write_one index (add_operation key visible p) (r, c))
    as [r' c'] eqn:E.
  intros Hj. destruct (IH _ _ _ _ _ Hj) as [Hv|Hj']; [by left|].
  apply (add_write_visible index key visible p r c). by rewrite E.
Qed.

(** Nothing [add] writes can be claimed before the delay has passed.
    Whatever the payload, single or batch, debounced or not: if nothing
    in the collection was claimable at the instant of a later [get], and
    that instant comes before [now] plus the delay in force, [get] finds
    nothing and writes nothing. *)
Theorem hidden_until_visible fuel self payload aopts now db gopts o k :
  let delay :=
    or_else (AddOptions.delay (default AddOptions.empty aopts))
            (Queue.delay self) in
  let db' := (add self payload aopts now db).2 in
  (∀ j d, docs (col_of db (Queue.col self)) !! j = Some d →
          ¬ Claimable (clock o k) d) →
  clock o k < now + delay * 1000 →
  get (S fuel) self gopts o k db' = Some ([Success None], db').
Proof.
  intros delay db' Hnone Hearly. apply get_nothing.
  intros j d' Hj [Hdel (v & Hv & Hle)].
  assert (Doc.visible d' = Some (Date (now + delay * 1000))
          ∨ docs (col_of db (Queue.col self)) !! j = Some d') as [Hnew|Hold].
  { unfold db' in Hj.
    destruct (decide ((if isArray payload then elements payload
                       else [payload]) = [])) as [Hnil|Hne].
    - destruct payload as [| | | | |items|]; try discriminate Hnil.
      simpl in Hnil. subst items. by right.
    - rewrite (add_writes self payload aopts now db Hne), col_of_insert_eq
        in Hj.
      by apply add_writes_visible in Hj. }
  - rewrite Hnew in Hv. injection Hv as <-. lia.
  - apply (Hnone j d' Hold). split; [done|]. eauto.
Qed.

Lemma hidden_until_visible_witness :
  get 1 delayed_queue None (oracle_at 1100) O greeted
  = Some ([Success None], greeted).
Proof.
  apply (hidden_until_visible O delayed_queue (VStr "Hello, World!")
           (Some greetings) 1000 ∅ None (oracle_at 1100) O).
  - intros j d Hj. done.
  - vm_compute. reflexivity.
Defined.

(** Debouncing hides the waiting message again.  One document at most
    waits under key [k] and no other document is claimable at the instant
    of a later [get]; a single payload is added under [k] at [now].  If
    the [get] comes before [now] plus the delay in force it finds nothing,
    even when the waiting document had been visible before the [add]. *)
Theorem debounce_hides_again fuel self payload aopts now db gopts o k key :
  let delay :=
    or_else (AddOptions.delay (default AddOptions.empty aopts))
            (Queue.delay self) in
  let c := col_of db (Queue.col self) in
  let db' := (add self payload aopts now db).2 in
  debounce_key (default AddOptions.empty aopts) = Some key →
  isArray payload = false →
  Once key (docs c) →
  (∀ j d, docs c !! j = Some d → ¬ Waiting key d →
          ¬ Claimable (clock o k) d) →
  clock o k < now + delay * 1000 →
  get (S fuel) self gopts o k db' = Some ([Success None], db').
Proof.
  intros delay c db' Hkey Harr Honce Hothers Hearly. apply get_nothing.
  intros j d' Hj [Hdel (v & Hv & Hle)]. unfold db' in Hj.
  rewrite (add_single self payload aopts now db Harr) in Hj.
  cbv zeta in Hj. cbn [snd] in Hj.
  rewrite Hkey, col_of_insert_eq in Hj. fold delay c in Hj.
  unfold written in Hj.
  destruct (first_match (Fields [(Fack, IsNull); (Fdeleted, IsNull);
                                 (Fdebounce, Equals (BString key))]) (docs c))
    as [[i d]|] eqn:E.
  - rewrite (debounce_write_matched _ _ _ _ _ _ _ _ E) in Hj. simpl in Hj.
    apply first_match_Some in E as (Hi & Hd & _).
    apply matches_waiting in Hd.
    apply list_lookup_insert_Some in Hj as [(_ & <- & _)|(Hne & Hj)].
    + simpl in Hv. injection Hv as <-. lia.
    + apply (Hothers j d' Hj); [|split; eauto].
      intros Hw. by specialize (Honce i j d d' Hi Hj Hd Hw).
  - rewrite (debounce_write_unmatched _ _ _ _ _ _ E) in Hj. simpl in Hj.
    apply lookup_app_Some in Hj as [Hj|[_ Hj]].
    + apply (Hothers j d' Hj); [|split; eauto].
      intros Hw. rewrite first_match_None in E. specialize (E j d' Hj).
      apply matches_waiting in Hw. congruence.
    + apply list_lookup_singleton_Some in Hj as [_ <-].
      simpl in Hv. injection Hv as <-. lia.
Qed.

Lemma debounce_hides_again_witness :
  get 1 delayed_queue None (oracle_at 5000) O
      (add delayed_queue (VStr "Bonjour, monde!") (Some greetings) 3500
           greeted).2
  = Some ([Success None],
          (add delayed_queue (VStr "Bonjour, monde!") (Some greetings) 3500
               greeted).2).
Proof.
  apply (debounce_hides_again O delayed_queue (VStr "Bonjour, monde!")
           (Some greetings) 3500 greeted None (oracle_at 5000) O "greetings").
  - reflexivity.
  - reflexivity.
  - intros [|i] [|j] d d'; try done.
  - intros [|j] d; [|done]. intros [= <-] Hw. destruct Hw. by split_and!.
  - vm_compute. reflexivity.
Defined.

(** ** The default retry policy *)

Lemma get_unlimited fuel self opts o k db :
  Queue.maxRetries self = Infinity →
  ∃ r, get (S fuel) self opts o k db
       = Some ([Success r],
               claimed_by self
                 (or_else (GetOptions.visibility
                             (default GetOptions.empty opts))
                          (Queue.visibility self))
                 (clock o k) (rand o k) db).
Proof.
  intros Hmax. simpl. unfold claimed_by, check_tries. rewrite Hmax.
  destruct (findOneAndUpdate _ _ _ _) as [[m|] c]; by eexists.
Qed.

(** A queue built with no dead queue and no [maxRetries], or with
    [maxRetries : 0], never gives up on a message: whatever the [tries] of
    the documents, [get] makes its one round trip, calls back once, with a
    message or with nothing and never with an error, and writes nothing
    but its claim.  With a dead queue the limit is the one given, or 5
    when none or 0 is given. *)
Theorem default_retry_policy client name opts self :
  new_Queue client name opts = Returns self →
  let given := default QueueOptions.empty opts in
  Queue.deadQueue self = QueueOptions.deadQueue given
  ∧ (QueueOptions.deadQueue given ≠ None →
     Queue.maxRetries self
     = Limit (match QueueOptions.maxRetries given with
              | Some n => if n =? 0 then 5 else n
              | None => 5
              end))
  ∧ (QueueOptions.deadQueue given = None →
     QueueOptions.maxRetries given = None
     ∨ QueueOptions.maxRetries given = Some 0 →
     ∀ fuel gopts o k db,
       ∃ r, get (S fuel) self gopts o k db
            = Some ([Success r],
                    claimed_by self
                      (or_else (GetOptions.visibility
                                  (default GetOptions.empty gopts))
                               (Queue.visibility self))
                      (clock o k) (rand o k) db)).
Proof.
  intros H given. unfold new_Queue in H.
  destruct client as [client|]; [|discriminate].
  destruct name as [[|a name]|]; try discriminate.
  injection H as <-. fold given. cbn [Queue.deadQueue Queue.maxRetries].
  split_and!.
  - done.
  - intros Hdq. destruct (QueueOptions.deadQueue given); [|done].
    by destruct (QueueOptions.maxRetries given).
  - intros Hdq Hmax fuel gopts o k db. apply get_unlimited.
    cbn [Queue.maxRetries]. rewrite Hdq. by destruct Hmax as [-> | ->].
Qed.

Lemma default_retry_policy_witness :
  ∃ r, get 1 (Queue.mk "jobs" ("test", "jobs")%string 30 0 (-1) None Infinity)
           None demo_oracle O ∅
       = Some ([Success r],
               claimed_by
                 (Queue.mk "jobs" ("test", "jobs")%string 30 0 (-1) None
                           Infinity)
                 30 1000 "100" ∅).
Proof.
  destruct (default_retry_policy (Some demo_client) (Some "jobs"%string)
              (Some (QueueOptions.mk None None None (Some 0) None))
              (Queue.mk "jobs" ("test", "jobs")%string 30 0 (-1) None Infinity)
              eq_refl) as (_ & _ & Hget).
  apply (Hget eq_refl (or_intror eq_refl) O None demo_oracle O ∅).
Defined.

(** ** Queues side by side *)

Lemma ack_elsewhere self t now db ref :
  Queue.col self ≠ ref → col_of (ack self t now db).2 ref = col_of db ref.
Proof.
  intros Hne. unfold ack.
  destruct (findOneAndUpdate _ _ _ _) as [[m|] c]; [|done].
  by apply col_of_insert_ne.
Qed.

Lemma ping_elsewhere self t opts now db ref :
  Queue.col self ≠ ref →
  col_of (ping self t opts now db).2 ref = col_of db ref.
Proof.
  intros Hne. unfold ping.
  destruct (findOneAndUpdate _ _ _ _) as [[m|] c]; [|done].
  by apply col_of_insert_ne.
Qed.

Lemma migrate_elsewhere parse self db ref :
  Queue.col self ≠ ref →
  col_of (migrate parse self db).2 ref = col_of db ref.
Proof.
  intros Hne. rewrite migrate_unfold. cbv zeta.
  destruct (_ <=? _)%nat; [done|]. by apply col_of_insert_ne.
Qed.

Lemma get_elsewhere fuel self o ref :
  Queue.col self ≠ ref →
  (∀ dq, Queue.deadQueue self = Some dq → Queue.col dq ≠ ref) →
  ∀ opts k db calls db',
    get fuel self opts o k db = Some (calls, db') →
    col_of db' ref = col_of db ref.
Proof.
  intros Hne Hdq.
  induction fuel as [|fuel IH]; intros opts k db calls db'; [done|].
  simpl.
  destruct (findOneAndUpdate _ _ _ _) as [[m|] c]; [|by intros [= <- <-]].
  assert (col_of (<[Queue.col self := c]> db) ref = col_of db ref) as Hclaim
    by (by apply col_of_insert_ne).
  unfold check_tries.
  destruct (exceeds _ _); [|by intros [= <- <-]].
  destruct (Queue.deadQueue self) as [dq|] eqn:Edq.
  - pose proof (add_elsewhere dq (value_of_msg (external m)) None
                  (clock o (k + 1)) (<[Queue.col self := c]> db) ref
                  (Hdq dq eq_refl)) as Hadd.
    destruct (add dq _ _ _ _) as [[err|v] db1]; simpl in Hadd;
      [intros [= <- <-]; congruence|].
    pose proof (ack_elsewhere self (Msg.ack (external m)) (clock o (k + 2))
                  db1 ref Hne) as Hack.
    destruct (ack self _ _ db1) as [[err|v'] db2]; simpl in Hack;
      [intros [= <- <-]; congruence|].
    intros Hget. apply IH in Hget. congruence.
  - pose proof (ack_elsewhere self (Msg.ack (external m)) (clock o (k + 1))
                  (<[Queue.col self := c]> db) ref Hne) as Hack.
    destruct (ack self _ _ _) as [[err|v'] db1]; simpl in Hack; simpl;
      [intros [= <- <-]; congruence|].
    destruct (get fuel self None o _ db1) as [[calls1 db2]|] eqn:Eget;
      [|done].
    simpl. intros [= <- <-]. apply IH in Eget. congruence.
Qed.

(** Queues on different collections do not interfere.  No operation of a
    queue writes to a collection other than its own and, for [get], that
    of its dead queue. *)
Theorem queues_do_not_interfere self db ref :
  Queue.col self ≠ ref →
  (∀ dq, Queue.deadQueue self = Some dq → Queue.col dq ≠ ref) →
  (∀ payload opts now, col_of (add self payload opts now db).2 ref
                       = col_of db ref)
  ∧ (∀ fuel opts o k calls db',
       get fuel self opts o k db = Some (calls, db') →
       col_of db' ref = col_of db ref)
  ∧ (∀ t opts now, col_of (ping self t opts now db).2 ref = col_of db ref)
  ∧ (∀ t now, col_of (ack self t now db).2 ref = col_of db ref)
  ∧ (∀ parse, col_of (migrate parse self db).2 ref = col_of db ref)
  ∧ col_of (clean self db) ref = col_of db ref.
Proof.
  intros Hne Hdq. split_and!.
  - intros. by apply add_elsewhere.
  - intros fuel opts o k calls db'. by apply get_elsewhere.
  - intros. by apply ping_elsewhere.
  - intros. by apply ack_elsewhere.
  - intros. by apply migrate_elsewhere.
  - unfold clean. by apply col_of_insert_ne.
Qed.

Lemma queues_do_not_interfere_witness :
  col_of (add retiring_queue (VStr "x") None 0 greeted).2
         (Queue.col delayed_queue)
  = col_of greeted (Queue.col delayed_queue).
Proof.
  destruct (queues_do_not_interfere retiring_queue greeted
              (Queue.col delayed_queue)) as (Hadd & _).
  - discriminate.
  - intros dq [= <-]. discriminate.
  - apply Hadd.
Defined.

Lemma get_completes_witness :
  is_Some (get 3 retiring_queue None late_oracle O (once_tried retiring_queue)).
Proof.
  apply get_completes.
  - intros dq [= <-]. discriminate.
  - vm_compute. lia.
Defined.

Lemma dead_queue_hides_over_retried_witness :
  exceeds (Msg.tries (Msg.mk "1" "203" (VStr "b") 1))
          (Queue.maxRetries retiring_queue) = false.
Proof.
  assert (∃ db', get 2 retiring_queue None late_oracle O
                     (once_tried retiring_queue)
                 = Some ([Success (Some (Msg.mk "1" "203" (VStr "b") 1))], db'))
    as [db' Hget] by (vm_compute; eexists; reflexivity).
  apply (dead_queue_hides_over_retried 2 retiring_queue dead_queue None
           late_oracle O (once_tried retiring_queue) _ db' _ eq_refl Hget).
  by left.
Defined.

(** ** The backlog after [add] *)

Lemma fresh_docs_cons first visible p ps :
  fresh_docs first visible (p :: ps)
  = Doc.mk first p (Some (Date visible)) None None None None
    :: fresh_docs (N.succ first) visible ps.
Proof.
  unfold fresh_docs. simpl. rewrite N.add_0_r. f_equal.
  apply imap_ext. intros j x _. simpl. f_equal. lia.
Qed.

Lemma fresh_docs_claimable t visible payloads : ∀ first,
  visible ≤ t →
  List.filter (matches (Fields [(Fdeleted, IsNull); (Fvisible, Lte t)]))
              (fresh_docs first visible payloads)
  = fresh_docs first visible payloads.
Proof.
  induction payloads as [|p ps IH]; intros first Hle; [done|].
  rewrite fresh_docs_cons. simpl. rewrite andb_true_r.
  destruct (Z.leb_spec visible t); [|lia]. by rewrite IH.
Qed.

Lemma fresh_docs_hidden t visible payloads : ∀ first,
  t < visible →
  List.filter (matches (Fields [(Fdeleted, IsNull); (Fvisible, Lte t)]))
              (fresh_docs first visible payloads) = [].
Proof.
  induction payloads as [|p ps IH]; intros first Hlt; [done|].
  rewrite fresh_docs_cons. simpl. rewrite andb_true_r.
  destruct (Z.leb_spec visible t); [lia|]. by apply IH.
Qed.

(** Without a debounce key, [add] of [n] payloads leaves [size] as it was
    at every instant before they become visible, and raises it by [n] at
    every instant from then on. *)
Theorem add_grows_size self payload opts now db t :
  let opts' := default AddOptions.empty opts in
  let delay := or_else (AddOptions.delay opts') (Queue.delay self) in
  let payloads := if isArray payload then elements payload else [payload] in
  let db' := (add self payload opts now db).2 in
  debounce_key opts' = None → payloads ≠ [] →
  ∃ s, size self t db = Success s
       ∧ (t < now + delay * 1000 → size self t db' = Success s)
       ∧ (now + delay * 1000 ≤ t →
          size self t db' = Success (s + length payloads)%nat).
Proof.
  intros opts' delay payloads db' Hkey Hne.
  pose proof (add_writes self payload opts now db Hne) as Hw.
  cbv zeta in Hw. fold opts' delay payloads db' in Hw.
  rewrite Hkey in Hw. unfold bulkWrite in Hw. rewrite plain_writes in Hw.
  eexists. split; [reflexivity|].
  unfold size, count, find. rewrite Hw, col_of_insert_eq. cbn [docs].
  rewrite List.filter_app, length_app. split; intros Ht; f_equal.
  - by rewrite fresh_docs_hidden.
  - rewrite fresh_docs_claimable by done.
    unfold fresh_docs. by rewrite length_imap.
Qed.

Lemma add_grows_size_witness :
  ∃ s, size delayed_queue 5000 ∅ = Success s
       ∧ (5000 < 1000 + 3 * 1000 →
          size delayed_queue 5000
               (add delayed_queue (VArr [VStr "a"; VStr "b"]) None 1000 ∅).2
          = Success s)
       ∧ (1000 + 3 * 1000 ≤ 5000 →
          size delayed_queue 5000
               (add delayed_queue (VArr [VStr "a"; VStr "b"]) None 1000 ∅).2
          = Success (s + 2)%nat).
Proof.
  apply (add_grows_size delayed_queue (VArr [VStr "a"; VStr "b"]) None 1000 ∅
           5000); [reflexivity|discriminate].
Defined.
